(** * crosschain: asset identity, amounts and the cosmos transaction adapter

    A shallow embedding of [amount.go] (amounts, assets, canonical asset
    ids), [tx.go] (the transaction contract) and [chain/cosmos/tx.go],
    [chain/cosmos/address.go] (the cosmos adapter), followed by the
    properties of the specification that concern them.

    Conventions of the embedding.
    - A Go [string] is a sequence of bytes: Rocq's [string], whose
      characters are 8-bit [ascii] values.
    - A Go slice is [slice A]: [None] is the nil slice, [Some l] a non-nil
      slice with elements [l].
    - A Go [error] is [error]: [None] is nil, [Some msg] an error with text
      [msg].
    - An interface value or pointer that may be nil is an [option], or an
      inductive type with a [_nil] constructor.
    - A Go call that may panic returns an [outcome]. *)

From Stdlib Require Import String Ascii List ZArith Lia Bool.
From Stdlib Require Import Strings.Byte.
From Stdlib Require DecimalString DecimalZ DecimalPos.
Import ListNotations.

Open Scope string_scope.
Open Scope bool_scope.

(* ================================================================= *)
(** ** Go runtime values *)

Module Go.

Definition slice (A : Type) : Type := option (list A).

Definition len {A : Type} (s : slice A) : nat :=
  match s with
  | None => 0
  | Some l => List.length l
  end.

(** The elements of a slice, none for the nil slice. *)
Definition elems {A : Type} (s : slice A) : list A :=
  match s with
  | None => []
  | Some l => l
  end.

Definition error : Type := option string.

Definition errors_New (text : string) : error := Some text.

(** The result of a call: it returns a value, or the goroutine panics. *)
Inductive outcome (A : Type) : Type :=
| Returns (a : A)
| Panics (reason : string).
Arguments Returns {A} a.
Arguments Panics {A} reason.

Definition index_out_of_range : string := "index out of range".
Definition nil_dereference : string := "nil pointer dereference".
Definition interface_conversion : string := "interface conversion".

End Go.

(* ================================================================= *)
(** ** Package [strings] on byte strings *)

Module strings.

Definition is_ascii_byte (c : ascii) : bool := (nat_of_ascii c <? 128)%nat.

Definition is_lower (c : ascii) : bool :=
  ((97 <=? nat_of_ascii c) && (nat_of_ascii c <=? 122))%nat.

(** [c -= 'a' - 'A'] on a lower-case letter. *)
Definition upper_byte (c : ascii) : ascii :=
  if is_lower c then ascii_of_nat (nat_of_ascii c - 32) else c.

(** [strings.ToUpper] as Go computes it on a string of ASCII bytes (its
    fast path).  On other bytes Go maps Unicode code points; the
    properties below that depend on [ToUpper] are stated for ASCII
    strings. *)
Fixpoint ToUpper (s : string) : string :=
  match s with
  | EmptyString => EmptyString
  | String c s' => String (upper_byte c) (ToUpper s')
  end.

Fixpoint all_bytes (p : ascii -> bool) (s : string) : bool :=
  match s with
  | EmptyString => true
  | String c s' => p c && all_bytes p s'
  end.

(** Every byte is below 0x80. *)
Definition is_ascii (s : string) : bool := all_bytes is_ascii_byte s.

(** An ASCII string without lower-case letters. *)
Definition is_upper_ascii (s : string) : bool :=
  all_bytes (fun c => is_ascii_byte c && negb (is_lower c)) s.

(** [strings.Split(s, sep)] for a one-byte separator: the pieces of [s]
    between the occurrences of [sep]; one piece more than there are
    separators, so [Split "" sep] is the one empty piece. *)
Fixpoint Split (s : string) (sep : ascii) : list string :=
  match s with
  | EmptyString => [EmptyString]
  | String c s' =>
      if Ascii.eqb c sep then EmptyString :: Split s' sep
      else match Split s' sep with
           | piece :: pieces => String c piece :: pieces
           | [] => [String c EmptyString]
           end
  end.

End strings.

(* ================================================================= *)
(** ** Package [crosschain]: amount.go *)

Module crosschain.
Import Go.

(** *** Amounts *)

(** [type AmountBlockchain big.Int]: an integer of any size. *)
Definition AmountBlockchain : Type := Z.

Definition uint64_modulus : Z := 2 ^ 64.

(** A Go [uint64] is a [Z] in this range. *)
Definition is_uint64 (u : Z) : Prop := (0 <= u < uint64_modulus)%Z.

(** [big.Int.Uint64]: the low 64 bits of the magnitude (math/big's
    [low64(x.abs)]); the sign is ignored. *)
Definition big_Int_Uint64 (x : Z) : Z := Z.land (Z.abs x) (uint64_modulus - 1).

(** [new(big.Int).SetUint64(u)]. *)
Definition big_Int_SetUint64 (u : Z) : Z := u.

Definition AmountBlockchain_Uint64 (amount : AmountBlockchain) : Z :=
  let bigInt := amount in
  big_Int_Uint64 bigInt.

Definition NewAmountBlockchainFromUint64 (u64 : Z) : AmountBlockchain :=
  let bigInt := big_Int_SetUint64 u64 in
  bigInt.

(** *** Assets *)

Definition Asset : Type := string.
Definition NativeAsset : Type := string.

Definition BCH : NativeAsset := "BCH".
Definition BTC : NativeAsset := "BTC".
Definition DOGE : NativeAsset := "DOGE".
Definition ACA : NativeAsset := "ACA".
Definition ArbETH : NativeAsset := "ArbETH".
Definition ATOM : NativeAsset := "ATOM".
Definition AurETH : NativeAsset := "AurETH".
Definition AVAX : NativeAsset := "AVAX".
Definition BNB : NativeAsset := "BNB".
Definition CELO : NativeAsset := "CELO".
Definition ETC : NativeAsset := "ETC".
Definition ETH : NativeAsset := "ETH".
Definition FTM : NativeAsset := "FTM".
Definition KAR : NativeAsset := "KAR".
Definition KLAY : NativeAsset := "KLAY".
Definition LUNA : NativeAsset := "LUNA".
Definition MATIC : NativeAsset := "MATIC".
Definition OptETH : NativeAsset := "OptETH".
Definition ROSE : NativeAsset := "ROSE".
Definition SOL : NativeAsset := "SOL".

(** The constants of the two [case] lists shared by [AssetType] and
    [ChainType]. *)
Definition utxo_natives : list NativeAsset := [BCH; BTC; DOGE].
Definition account_natives : list NativeAsset :=
  [ACA; ArbETH; ATOM; AurETH; AVAX; BNB; CELO; ETC; ETH; FTM; KAR; KLAY;
   LUNA; MATIC; OptETH; ROSE; SOL].

(** The whole enumeration, in the order of the [const] block. *)
Definition native_assets : list NativeAsset := utxo_natives ++ account_natives.

(** [case c1, ..., cn:] of a [switch] on a string: [==] with one of them. *)
Definition switch_case (x : string) (cases : list string) : bool :=
  existsb (String.eqb x) cases.

(** [AssetTypeNative = "native"], [AssetTypeToken = "token"]. *)
Inductive AssetType : Type := AssetTypeNative | AssetTypeToken.

Definition AssetType_eqb (a b : AssetType) : bool :=
  match a, b with
  | AssetTypeNative, AssetTypeNative => true
  | AssetTypeToken, AssetTypeToken => true
  | _, _ => false
  end.

Definition Asset_AssetType (asset : Asset) : AssetType :=
  let native : NativeAsset := asset in
  if switch_case native utxo_natives then AssetTypeNative
  else if switch_case native account_natives then AssetTypeNative
  else AssetTypeToken.

(** The test [Asset(s).AssetType() == AssetTypeNative] of
    [parseAssetAndNativeAsset] and [GetAssetIDFromAsset]. *)
Definition is_native (s : string) : bool :=
  AssetType_eqb (Asset_AssetType s) AssetTypeNative.

(** The test of [parseAssetAndNativeAsset] on [assetSplit]: two pieces,
    the second one native. *)
Definition splits_native (asset : string) : bool :=
  let assetSplit := strings.Split asset "." in
  (List.length assetSplit =? 2)%nat
  && AssetType_eqb (Asset_AssetType (nth 1 assetSplit "")) AssetTypeNative.

(** [ChainTypeUnknown = "unknown"], [ChainTypeUTXO = "utxo"],
    [ChainTypeAccount = "account"]. *)
Inductive ChainType : Type := ChainTypeUnknown | ChainTypeUTXO | ChainTypeAccount.

Definition NativeAsset_ChainType (native : NativeAsset) : ChainType :=
  if switch_case native utxo_natives then ChainTypeUTXO
  else if switch_case native account_natives then ChainTypeAccount
  else ChainTypeUnknown.

Definition AssetID : Type := string.

Definition parseAssetAndNativeAsset (asset nativeAsset : string) : string * string :=
  if (asset =? "") && (nativeAsset =? "") then ("", "")
  else
    let asset :=
      if (asset =? "") && negb (nativeAsset =? "") then nativeAsset else asset in
    let assetSplit := strings.Split asset "." in
    let '(asset, nativeAsset) :=
      if (List.length assetSplit =? 2)%nat
         && AssetType_eqb (Asset_AssetType (nth 1 assetSplit "")) AssetTypeNative
      then (nth 0 assetSplit "",
            if nativeAsset =? "" then nth 1 assetSplit "" else nativeAsset)
      else (asset, nativeAsset) in
    let validNative := AssetType_eqb (Asset_AssetType asset) AssetTypeNative in
    let nativeAsset :=
      if nativeAsset =? "" then (if validNative then asset else "ETH")
      else nativeAsset in
    let nativeAsset := strings.ToUpper nativeAsset in
    (asset, nativeAsset).

Definition GetAssetIDFromAsset (asset nativeAsset : string) : AssetID :=
  let '(asset, nativeAsset) := parseAssetAndNativeAsset asset nativeAsset in
  let asset := strings.ToUpper asset in
  let validNative := AssetType_eqb (Asset_AssetType asset) AssetTypeNative in
  if asset =? nativeAsset then asset
  else if (nativeAsset =? "ETH") && negb validNative then asset
  else asset ++ "." ++ nativeAsset.

(** [big.Int.String]: the decimal numeral, "-" before a negative one,
    "0" for zero. *)
Definition big_Int_String (x : Z) : string :=
  DecimalString.NilZero.string_of_int (Z.to_int x).

Definition AmountBlockchain_String (amount : AmountBlockchain) : string :=
  let bigInt := amount in
  big_Int_String bigInt.

(** [AssetConfig], the asset as read from the config file or db; [int64]
    and [int32] fields are integers. *)
Record AssetConfig : Type := mkAssetConfig
  { AssetConfig_Asset : string;
    AssetConfig_Net : string;
    AssetConfig_URL : string;
    AssetConfig_Auth : string;
    AssetConfig_Provider : string;
    AssetConfig_ChainID : Z;
    AssetConfig_ChainIDStr : string;
    AssetConfig_ChainName : string;
    AssetConfig_ChainPrefix : string;
    AssetConfig_ExplorerURL : string;
    AssetConfig_Chain : string;
    AssetConfig_Contract : string;
    AssetConfig_Decimals : Z;
    AssetConfig_Name : string;
    AssetConfig_ID : AssetID;
    AssetConfig_AuthSecret : string;
    AssetConfig_NativeAsset : NativeAsset;
    AssetConfig_Type : AssetType }.

(** [fmt.Sprintf] of the four [%s] verbs: the strings, byte for byte,
    between the literal parts of the format. *)
Definition AssetConfig_String (c : AssetConfig) : string :=
  "net: " ++ AssetConfig_Net c ++ ", url: " ++ AssetConfig_URL c
  ++ ", auth: " ++ AssetConfig_Auth c ++ ", provider: " ++ AssetConfig_Provider c.

(** *** tx.go *)

Definition TxHash : Type := string.
Definition TxDataToSign : Type := slice byte.
Definition TxSignature : Type := slice byte.

(** *** Addresses *)

(** Modelled from the spec: the declarations of [Address],
    [AddressType], [AddressTypeDefault] and [PossibleAddress] (the root
    package's address file is not among the sources).  An address is an
    opaque string; a possible address pairs it with a variant tag, the
    single tag used here being the default one. *)
Definition Address : Type := string.

End crosschain.

(* ================================================================= *)
(** ** Package [cosmos]: chain/cosmos/tx.go and chain/cosmos/address.go *)

Module cosmos.
Import Go.
Module xc := crosschain.

(** *** What the adapter reads of the cosmos-sdk

    The sdk's types are external; they are modelled at the boundary the
    adapter crosses: the fields it reads and the dynamic types its type
    switches and assertions tell apart. *)

(** [sdk.Int] wraps a [*big.Int]; on the zero value [BigInt()] is nil. *)
Definition sdk_Int : Type := option Z.

Record Coin : Type := mkCoin
  { Coin_Denom : string;
    Coin_Amount : sdk_Int }.

Record MsgSend : Type := mkMsgSend
  { MsgSend_FromAddress : string;
    MsgSend_ToAddress : string;
    MsgSend_Amount : list Coin }.

(** A [types.Msg] interface value by dynamic type: nil, a
    [*banktypes.MsgSend] (a pointer, [None] when nil), or a message of
    another kind. *)
Inductive Msg : Type :=
| Msg_nil
| Msg_MsgSend (p : option MsgSend)
| Msg_other (kind : string).

Record SingleSignatureData : Type := mkSingleSignatureData
  { SignMode : Z;
    Signature : slice byte }.

(** A [signingtypes.SignatureData] interface value by dynamic type. *)
Inductive SignatureData : Type :=
| SignatureData_nil
| SignatureData_Single (p : option SingleSignatureData)
| SignatureData_Multi.

Record SignatureV2 : Type := mkSignatureV2
  { PubKey : list byte;
    Data : SignatureData;
    Sequence : Z }.

(** A non-nil [types.Tx]: its messages, its fee when its dynamic type
    has the [types.FeeTx] capability, and the signatures set on it. *)
Record sdk_Tx : Type := mk_sdk_Tx
  { GetMsgs : list Msg;
    GetFee : option (list Coin);
    GetSignaturesV2 : list SignatureV2 }.

(** A non-nil [client.TxBuilder]: the transaction it is building, as
    [GetTx()] returns it ([None]: a nil [Tx]). *)
Record TxBuilder : Type := mkTxBuilder
  { GetTx : option sdk_Tx }.

Definition SetSignatures (b : TxBuilder) (signatures : list SignatureV2) : TxBuilder :=
  {| GetTx :=
       option_map
         (fun t => {| GetMsgs := GetMsgs t; GetFee := GetFee t;
                      GetSignaturesV2 := signatures |})
         (GetTx b) |}.

Definition TxEncoder : Type := sdk_Tx -> slice byte * error.

(** [hex.EncodeToString]. *)
Definition hextable : string := "0123456789abcdef".

Definition hex_digit (n : N) : ascii :=
  match String.get (N.to_nat n) hextable with
  | Some c => c
  | None => "0"%char
  end.

Fixpoint hex_EncodeToString (src : list byte) : string :=
  match src with
  | [] => EmptyString
  | v :: rest =>
      String (hex_digit (N.shiftr (Byte.to_N v) 4))
        (String (hex_digit (N.land (Byte.to_N v) 15))
           (hex_EncodeToString rest))
  end.

(** [fromHexChar] of encoding/hex on the digits that [EncodeToString]
    writes: the value of a lower-case hex digit. *)
Definition fromHexChar (c : ascii) : option N :=
  let n := N_of_ascii c in
  if ((48 <=? n) && (n <=? 57))%N then Some (n - 48)%N
  else if ((97 <=? n) && (n <=? 102))%N then Some (n - 97 + 10)%N
  else None.

Definition is_hex_digit (c : ascii) : bool :=
  match fromHexChar c with
  | Some _ => true
  | None => false
  end.

(** *** tx.go *)

(** [Tx] for Cosmos.  The record also stands for what a call can change
    through it: the array behind [SigsV2] and the builder are shared
    with the caller, so [AddSignature] returns the record as the caller
    sees it afterwards. *)
Record Tx : Type := mkTx
  { CosmosTx : option sdk_Tx;
    ParsedTransfer : Msg;
    CosmosTxBuilder : option TxBuilder;
    CosmosTxEncoder : option TxEncoder;
    SigsV2 : slice SignatureV2;
    TxDataToSign : slice byte }.

Definition is_nil {A : Type} (x : option A) : bool :=
  match x with
  | None => true
  | Some _ => false
  end.

Definition not_initialized : error := errors_New "transaction not initialized".

Definition Serialize (tx : Tx) : slice byte * error :=
  match CosmosTxEncoder tx with
  | None => (Some [], not_initialized)
  | Some encoder =>
      let txToEncode :=
        match CosmosTxBuilder tx with
        | Some builder => GetTx builder
        | None => CosmosTx tx
        end in
      match txToEncode with
      | None => (Some [], not_initialized)
      | Some t => encoder t
      end
  end.

Section Hashing.

(** [tmhash.Sum], the sha256 digest of tendermint: a function to
    [tmhash.Size] bytes. *)
Variable tmhash_Sum : list byte -> list byte.

Definition Hash (tx : Tx) : xc.TxHash :=
  let '(serialized, err) := Serialize tx in
  if negb (is_nil err) || is_nil serialized || (len serialized =? 0)%nat
  then ""
  else
    let txID := tmhash_Sum (elems serialized) in
    hex_EncodeToString txID.

End Hashing.

Definition tmhash_Size : nat := 32.

Definition Sighash (tx : Tx) : xc.TxDataToSign * error :=
  if is_nil (TxDataToSign tx) then (None, not_initialized)
  else (TxDataToSign tx, None).

Definition AddSignature (tx : Tx) (signature : xc.TxSignature)
  : outcome (Tx * error) :=
  if is_nil (SigsV2 tx) || (len (SigsV2 tx) <? 1)%nat || is_nil (CosmosTxBuilder tx)
  then Returns (tx, not_initialized)
  else
    match SigsV2 tx, CosmosTxBuilder tx with
    | Some (sig0 :: sigs), Some builder =>
        match Data sig0 with
        | SignatureData_Single (Some single) =>
            let signMode := SignMode single in
            let data :=
              SignatureData_Single
                (Some {| SignMode := signMode; Signature := signature |}) in
            let sigsV2 :=
              {| PubKey := PubKey sig0; Data := data; Sequence := Sequence sig0 |}
                :: sigs in
            Returns ({| CosmosTx := CosmosTx tx;
                        ParsedTransfer := ParsedTransfer tx;
                        CosmosTxBuilder := Some (SetSignatures builder sigsV2);
                        CosmosTxEncoder := CosmosTxEncoder tx;
                        SigsV2 := Some sigsV2;
                        TxDataToSign := TxDataToSign tx |}, None)
        | SignatureData_Single None => Panics nil_dereference
        | SignatureData_nil | SignatureData_Multi => Panics interface_conversion
        end
    | Some [], _ => Panics index_out_of_range
    | _, _ => Panics nil_dereference
    end.

Definition set_ParsedTransfer (tx : Tx) (msg : Msg) : Tx :=
  {| CosmosTx := CosmosTx tx;
     ParsedTransfer := msg;
     CosmosTxBuilder := CosmosTxBuilder tx;
     CosmosTxEncoder := CosmosTxEncoder tx;
     SigsV2 := SigsV2 tx;
     TxDataToSign := TxDataToSign tx |}.

(** [case *banktypes.MsgSend:] of a type switch on a message. *)
Definition is_MsgSend (msg : Msg) : bool :=
  match msg with
  | Msg_MsgSend _ => true
  | _ => false
  end.

(** The body of the [range] loop of [ParseTransfer]. *)
Definition ParseTransfer_step (tx : Tx) (msg : Msg) : Tx :=
  match msg with
  | Msg_MsgSend _ => set_ParsedTransfer tx msg
  | _ => tx
  end.

Definition ParseTransfer (tx : Tx) : outcome Tx :=
  match CosmosTx tx with
  | None => Panics nil_dereference
  | Some cosmosTx => Returns (fold_left ParseTransfer_step (GetMsgs cosmosTx) tx)
  end.

Definition From (tx : Tx) : outcome xc.Address :=
  match ParsedTransfer tx with
  | Msg_MsgSend (Some tf) => Returns (MsgSend_FromAddress tf)
  | Msg_MsgSend None => Panics nil_dereference
  | _ => Returns ""
  end.

Definition To (tx : Tx) : outcome xc.Address :=
  match ParsedTransfer tx with
  | Msg_MsgSend (Some tf) => Returns (MsgSend_ToAddress tf)
  | Msg_MsgSend None => Panics nil_dereference
  | _ => Returns ""
  end.

(** [coins[0].Amount.BigInt()] dereferenced. *)
Definition first_amount (coins : list Coin) : outcome xc.AmountBlockchain :=
  match coins with
  | [] => Panics index_out_of_range
  | coin :: _ =>
      match Coin_Amount coin with
      | None => Panics nil_dereference
      | Some amount => Returns amount
      end
  end.

Definition Amount (tx : Tx) : outcome xc.AmountBlockchain :=
  match ParsedTransfer tx with
  | Msg_MsgSend (Some tf) => first_amount (MsgSend_Amount tf)
  | Msg_MsgSend None => Panics nil_dereference
  | _ => Returns (xc.NewAmountBlockchainFromUint64 0)
  end.

Definition Fee (tx : Tx) : outcome xc.AmountBlockchain :=
  match CosmosTx tx with
  | Some tf =>
      match GetFee tf with
      | Some fee => first_amount fee
      | None => Returns (xc.NewAmountBlockchainFromUint64 0)
      end
  | None => Returns (xc.NewAmountBlockchainFromUint64 0)
  end.

(** *** address.go *)

Inductive AddressBuilder : Type := mkAddressBuilder.



Definition NewAddressBuilder (asset : xc.AssetConfig) : AddressBuilder * error :=
  (mkAddressBuilder, errors_New "not implemented").

(** [ContractAddress] is not implemented: the empty address. *)
Definition ContractAddress (tx : Tx) : string := "".

(** *** Sample transactions *)

Definition coin (amount : Z) : Coin :=
  {| Coin_Denom := "uatom"; Coin_Amount := Some amount |}.

Definition send_alice_bob : MsgSend :=
  {| MsgSend_FromAddress := "alice"; MsgSend_ToAddress := "bob";
     MsgSend_Amount := [coin 1] |}.

Definition send_carol_dave : MsgSend :=
  {| MsgSend_FromAddress := "carol"; MsgSend_ToAddress := "dave";
     MsgSend_Amount := [coin 2] |}.

(** A transaction of two transfers and a message of another kind. *)
Definition two_sends_Tx : Tx :=
  {| CosmosTx :=
       Some {| GetMsgs := [Msg_MsgSend (Some send_alice_bob);
                           Msg_other "MsgDelegate";
                           Msg_MsgSend (Some send_carol_dave)];
               GetFee := Some [coin 7];
               GetSignaturesV2 := [] |};
     ParsedTransfer := Msg_nil; CosmosTxBuilder := None;
     CosmosTxEncoder := None; SigsV2 := None; TxDataToSign := None |}.

(** A transfer message with an empty coin list has been parsed. *)
Definition no_coins_Tx : Tx :=
  {| CosmosTx := None;
     ParsedTransfer :=
       Msg_MsgSend (Some {| MsgSend_FromAddress := "alice";
                            MsgSend_ToAddress := "bob";
                            MsgSend_Amount := [] |});
     CosmosTxBuilder := None; CosmosTxEncoder := None;
     SigsV2 := None; TxDataToSign := None |}.

(** A fee-bearing transaction with an empty fee list. *)
Definition no_fee_Tx : Tx :=
  {| CosmosTx := Some {| GetMsgs := []; GetFee := Some []; GetSignaturesV2 := [] |};
     ParsedTransfer := Msg_nil; CosmosTxBuilder := None;
     CosmosTxEncoder := None; SigsV2 := None; TxDataToSign := None |}.

(** A built transaction whose first signer slot holds multi-signature
    data. *)
Definition multisig_Tx : Tx :=
  {| CosmosTx := None; ParsedTransfer := Msg_nil;
     CosmosTxBuilder :=
       Some {| GetTx := Some {| GetMsgs := []; GetFee := None;
                                GetSignaturesV2 := [] |} |};
     CosmosTxEncoder := None;
     SigsV2 := Some [ {| PubKey := []; Data := SignatureData_Multi; Sequence := 0 |} ];
     TxDataToSign := Some [x01] |}.

(** A built transaction with an encoder that writes one byte, and a
    digest function of [tmhash_Size] zero bytes, to run [Hash] on. *)
Definition encoded_Tx : Tx :=
  {| CosmosTx := Some {| GetMsgs := []; GetFee := None; GetSignaturesV2 := [] |};
     ParsedTransfer := Msg_nil; CosmosTxBuilder := None;
     CosmosTxEncoder := Some (fun _ => (Some [x2a], None));
     SigsV2 := None; TxDataToSign := None |}.

Definition zero_digest (bz : list byte) : list byte := repeat x00 tmhash_Size.

Definition single_data (mode : Z) (signature : slice byte) : SignatureData :=
  SignatureData_Single (Some {| SignMode := mode; Signature := signature |}).

(** A built, unsigned transaction of one transfer: one signer slot with
    an empty single signature, a builder and a payload to sign. *)
Definition built_Tx : Tx :=
  {| CosmosTx := None; ParsedTransfer := Msg_nil;
     CosmosTxBuilder :=
       Some {| GetTx := Some {| GetMsgs := [Msg_MsgSend (Some send_alice_bob)];
                                GetFee := Some [coin 7; coin 9];
                                GetSignaturesV2 := [] |} |};
     CosmosTxEncoder := Some (fun _ => (Some [x2a], None));
     SigsV2 := Some [ {| PubKey := [x02]; Data := single_data 1 None; Sequence := 5 |} ];
     TxDataToSign := Some [x01; x02] |}.

(** [built_Tx] with a stored transaction that the builder has since
    moved away from. *)
Definition stale_built_Tx : Tx :=
  {| CosmosTx := Some {| GetMsgs := []; GetFee := None; GetSignaturesV2 := [] |};
     ParsedTransfer := ParsedTransfer built_Tx;
     CosmosTxBuilder := CosmosTxBuilder built_Tx;
     CosmosTxEncoder := CosmosTxEncoder built_Tx;
     SigsV2 := None;
     TxDataToSign := None |}.

(** The two transfers of [two_sends_Tx] in a built, unsigned
    transaction. *)
Definition signable_two_sends_Tx : Tx :=
  {| CosmosTx := CosmosTx two_sends_Tx;
     ParsedTransfer := Msg_nil;
     CosmosTxBuilder := CosmosTxBuilder built_Tx;
     CosmosTxEncoder := CosmosTxEncoder built_Tx;
     SigsV2 := SigsV2 built_Tx;
     TxDataToSign := TxDataToSign built_Tx |}.

(** A transaction of messages of other kinds only. *)
Definition no_sends_Tx : Tx :=
  {| CosmosTx :=
       Some {| GetMsgs := [Msg_other "MsgDelegate"; Msg_other "MsgVote"];
               GetFee := None;
               GetSignaturesV2 := [] |};
     ParsedTransfer := Msg_nil; CosmosTxBuilder := None;
     CosmosTxEncoder := None; SigsV2 := None; TxDataToSign := None |}.

End cosmos.

(* ================================================================= *)
(** * Properties *)

(** ** Byte strings: [Split] and [ToUpper] *)

Module StringProps.
Import strings.

Lemma Split_cons (s : string) (sep : ascii) :
  exists piece pieces, Split s sep = piece :: pieces.
Proof.
  induction s as [| c s IH]; simpl.
  - eauto.
  - destruct (Ascii.eqb c sep); [eauto |].
    destruct IH as [h [t ->]]. eauto.
Qed.

Lemma Split_length_pos (s : string) (sep : ascii) :
  1 <= List.length (Split s sep).
Proof. destruct (Split_cons s sep) as [h [t ->]]. simpl. lia. Qed.

(** Splitting around one more separator: the pieces of both sides. *)
Lemma Split_app_sep (a b : string) (sep : ascii) :
  Split (a ++ String sep b) sep = (Split a sep ++ Split b sep)%list.
Proof.
  induction a as [| c a IH]; simpl.
  - now rewrite Ascii.eqb_refl.
  - destruct (Ascii.eqb c sep).
    + now rewrite IH.
    + rewrite IH. destruct (Split_cons a sep) as [h [t ->]]. reflexivity.
Qed.

(** A string that splits into one piece is that piece. *)
Lemma Split_singleton (s : string) (sep : ascii) (p : string) :
  Split s sep = [p] -> p = s.
Proof.
  revert p. induction s as [| c s IH]; simpl; intros p H.
  - congruence.
  - destruct (Ascii.eqb c sep).
    + destruct (Split_cons s sep) as [h [t Hs]]. rewrite Hs in H. discriminate.
    + destruct (Split_cons s sep) as [h [t Hs]]. rewrite Hs in H, IH.
      injection H as <- ->. now rewrite (IH h eq_refl).
Qed.

Lemma Split_length_1 (s : string) (sep : ascii) :
  List.length (Split s sep) = 1 -> Split s sep = [s].
Proof.
  intros H. destruct (Split s sep) as [| p [| q t]] eqn:Hs; try discriminate.
  now rewrite (Split_singleton _ _ _ Hs).
Qed.

(** No piece of a split contains the separator. *)
Lemma Split_pieces_whole (s : string) (sep : ascii) :
  Forall (fun piece => Split piece sep = [piece]) (Split s sep).
Proof.
  induction s as [| c s IH]; simpl.
  - constructor; [reflexivity | constructor].
  - destruct (Ascii.eqb c sep) eqn:Hc.
    + constructor; [reflexivity | assumption].
    + destruct (Split s sep) as [| h t].
      * constructor; [| constructor]. simpl. now rewrite Hc.
      * inversion IH as [| ? ? Hh Ht]; subst.
        constructor; [| assumption]. simpl. now rewrite Hc, Hh.
Qed.

(** A property of every byte of a string holds of every byte of its
    pieces. *)
Lemma Split_pieces_all (p : ascii -> bool) (s : string) (sep : ascii) :
  all_bytes p s = true ->
  Forall (fun piece => all_bytes p piece = true) (Split s sep).
Proof.
  induction s as [| c s IH]; simpl; intros H.
  - constructor; [reflexivity | constructor].
  - apply andb_true_iff in H as [Hc Hs]. specialize (IH Hs).
    destruct (Ascii.eqb c sep).
    + constructor; [reflexivity | assumption].
    + destruct (Split s sep) as [| h t].
      * constructor; [| constructor]. simpl. now rewrite Hc.
      * inversion IH as [| ? ? Hh Ht]; subst.
        constructor; [| assumption]. simpl. now rewrite Hc, Hh.
Qed.

Lemma Forall_nth_string (P : string -> Prop) (l : list string) (i : nat) :
  Forall P l -> P EmptyString -> P (nth i l EmptyString).
Proof.
  intros Hl H0. revert i. induction Hl as [| x l Hx Hl IH]; intros [| i]; simpl; auto.
Qed.

Lemma all_bytes_app (p : ascii -> bool) (a b : string) :
  all_bytes p (a ++ b) = all_bytes p a && all_bytes p b.
Proof.
  induction a as [| c a IH]; simpl; [reflexivity |].
  now rewrite IH, andb_assoc.
Qed.

Lemma upper_byte_fixed (c : ascii) :
  is_lower c = false -> upper_byte c = c.
Proof. unfold upper_byte. now intros ->. Qed.

(** Upper-casing an ASCII byte leaves an ASCII byte that is no
    lower-case letter. *)
Lemma upper_byte_upper (c : ascii) :
  is_ascii_byte c = true ->
  is_ascii_byte (upper_byte c) && negb (is_lower (upper_byte c)) = true.
Proof.
  destruct c as [[] [] [] [] [] [] [] []]; intros H;
    first [discriminate H | reflexivity].
Qed.

Lemma ToUpper_fixed (s : string) :
  is_upper_ascii s = true -> ToUpper s = s.
Proof.
  unfold is_upper_ascii. induction s as [| c s IH]; simpl; intros H.
  - reflexivity.
  - apply andb_true_iff in H as [Hc Hs]. apply andb_true_iff in Hc as [_ Hc].
    apply negb_true_iff in Hc. now rewrite (upper_byte_fixed c Hc), IH.
Qed.

Lemma ToUpper_upper (s : string) :
  is_ascii s = true -> is_upper_ascii (ToUpper s) = true.
Proof.
  unfold is_ascii, is_upper_ascii. induction s as [| c s IH]; simpl; intros H.
  - reflexivity.
  - apply andb_true_iff in H as [Hc Hs].
    now rewrite (upper_byte_upper c Hc), IH.
Qed.

Lemma is_upper_ascii_app (a b : string) :
  is_upper_ascii (a ++ b) = is_upper_ascii a && is_upper_ascii b.
Proof. apply all_bytes_app. Qed.

End StringProps.

(** ** Asset classification *)

Module AssetProps.
Import crosschain.

Lemma switch_case_In (x : string) (cases : list string) :
  switch_case x cases = true <-> In x cases.
Proof.
  unfold switch_case. rewrite existsb_exists. split.
  - intros [y [Hy Heq]]. apply String.eqb_eq in Heq. now subst.
  - intros H. exists x. split; [assumption | apply String.eqb_refl].
Qed.

Lemma switch_case_not_In (x : string) (cases : list string) :
  switch_case x cases = false <-> ~ In x cases.
Proof.
  rewrite <- switch_case_In. destruct (switch_case x cases); intuition congruence.
Qed.

Lemma In_native_assets (x : string) :
  In x native_assets <-> In x utxo_natives \/ In x account_natives.
Proof. unfold native_assets. apply in_app_iff. Qed.

Lemma is_native_In (s : string) : is_native s = true <-> In s native_assets.
Proof.
  unfold is_native, Asset_AssetType. rewrite In_native_assets.
  destruct (switch_case s utxo_natives) eqn:Hu.
  - apply switch_case_In in Hu. cbn [AssetType_eqb]. tauto.
  - destruct (switch_case s account_natives) eqn:Ha; cbn [AssetType_eqb].
    + apply switch_case_In in Ha. tauto.
    + apply switch_case_not_In in Hu, Ha. split; [discriminate | tauto].
Qed.

Lemma AssetType_native_iff (s : string) :
  Asset_AssetType s = AssetTypeNative <-> In s native_assets.
Proof.
  rewrite <- is_native_In. unfold is_native.
  destruct (Asset_AssetType s); simpl; split; congruence.
Qed.

(** C10. Classification is exact string comparison with the enumerated
    constants: [AssetType] is native exactly on the twenty enumerated
    spellings and token on every other string; [ChainType] is utxo
    exactly on BCH, BTC, DOGE, account exactly on the seventeen other
    constants and unknown on every other string.  Case variants such as
    "btc" and "ARBETH" are therefore token and unknown. *)
Theorem classification_exact :
  native_assets =
    ["BCH"; "BTC"; "DOGE"; "ACA"; "ArbETH"; "ATOM"; "AurETH"; "AVAX"; "BNB";
     "CELO"; "ETC"; "ETH"; "FTM"; "KAR"; "KLAY"; "LUNA"; "MATIC"; "OptETH";
     "ROSE"; "SOL"] /\
  (forall s : string,
      (Asset_AssetType s = AssetTypeNative <-> In s native_assets) /\
      (Asset_AssetType s = AssetTypeToken <-> ~ In s native_assets) /\
      (NativeAsset_ChainType s = ChainTypeUTXO <-> In s ["BCH"; "BTC"; "DOGE"]) /\
      (NativeAsset_ChainType s = ChainTypeAccount <->
         In s native_assets /\ ~ In s ["BCH"; "BTC"; "DOGE"]) /\
      (NativeAsset_ChainType s = ChainTypeUnknown <-> ~ In s native_assets)) /\
  Asset_AssetType "btc" = AssetTypeToken /\
  Asset_AssetType "ARBETH" = AssetTypeToken /\
  NativeAsset_ChainType "btc" = ChainTypeUnknown /\
  NativeAsset_ChainType "ARBETH" = ChainTypeUnknown.
Proof.
  split; [reflexivity |].
  split; [| repeat split; reflexivity].
  intros s.
  pose proof (AssetType_native_iff s) as Hnat.
  split; [exact Hnat |].
  split.
  { rewrite <- Hnat. destruct (Asset_AssetType s); split; congruence. }
  change ["BCH"; "BTC"; "DOGE"] with utxo_natives.
  rewrite In_native_assets. unfold NativeAsset_ChainType.
  destruct (switch_case s utxo_natives) eqn:Hu.
  - apply switch_case_In in Hu. intuition congruence.
  - destruct (switch_case s account_natives) eqn:Ha.
    + apply switch_case_not_In in Hu. apply switch_case_In in Ha.
      intuition congruence.
    + apply switch_case_not_In in Hu, Ha. intuition congruence.
Qed.

(** ** Canonical asset ids *)

Import strings StringProps.

Lemma is_native_nonempty (s : string) : is_native s = true -> s <> "".
Proof. intros H ->. discriminate H. Qed.

(** No enumerated constant contains the separator. *)
Lemma is_native_whole (s : string) : is_native s = true -> Split s "." = [s].
Proof.
  intros H. apply is_native_In in H.
  repeat (destruct H as [H | H]; [subst s; reflexivity |]).
  destruct H.
Qed.

(** [parseAssetAndNativeAsset] on an asset without a hint. *)
Lemma parse_no_hint (asset : string) :
  asset <> "" ->
  parseAssetAndNativeAsset asset "" =
    if splits_native asset
    then (nth 0 (Split asset ".") "", ToUpper (nth 1 (Split asset ".") ""))
    else (asset, ToUpper (if is_native asset then asset else "ETH")).
Proof.
  intros Hne. apply String.eqb_neq in Hne.
  unfold parseAssetAndNativeAsset. rewrite Hne. cbn [andb].
  fold (splits_native asset).
  destruct (splits_native asset) eqn:Hsp.
  - cbn [String.eqb].
    unfold splits_native in Hsp. apply andb_true_iff in Hsp as [_ Hnat].
    fold (is_native (nth 1 (Split asset ".") "")) in Hnat.
    apply is_native_nonempty, String.eqb_neq in Hnat. now rewrite Hnat.
  - cbn [String.eqb]. reflexivity.
Qed.

(** An upper-case asset that [parseAssetAndNativeAsset] does not split
    is its own id. *)
Lemma recanon_bare (A : string) :
  is_upper_ascii A = true ->
  splits_native A = false ->
  GetAssetIDFromAsset A "" = A.
Proof.
  intros Hup Hsp.
  destruct (String.eqb_spec A "") as [-> | Hne]; [reflexivity |].
  unfold GetAssetIDFromAsset.
  rewrite (parse_no_hint A Hne), Hsp, (ToUpper_fixed A Hup).
  fold (is_native A).
  destruct (is_native A) eqn:Hnat.
  - now rewrite (ToUpper_fixed A Hup), String.eqb_refl.
  - change (ToUpper "ETH") with "ETH".
    destruct (A =? "ETH"); reflexivity.
Qed.

Lemma dotted_not_native (A N : string) : is_native (A ++ "." ++ N) = false.
Proof.
  destruct (is_native (A ++ "." ++ N)) eqn:Hnat; [| reflexivity].
  apply is_native_whole in Hnat.
  apply (f_equal (@List.length string)) in Hnat.
  change (A ++ "." ++ N) with (A ++ String "." N) in Hnat.
  rewrite Split_app_sep, length_app in Hnat. simpl in Hnat.
  pose proof (Split_length_pos A "."). pose proof (Split_length_pos N "."). lia.
Qed.

(** An id of the form SYMBOL.CHAIN, in upper case and produced by the
    last branch of [GetAssetIDFromAsset], is its own id. *)
Lemma recanon_dotted (A N : string) :
  is_upper_ascii A = true ->
  is_upper_ascii N = true ->
  (A =? N) = false ->
  (N =? "ETH") && negb (is_native A) = false ->
  GetAssetIDFromAsset (A ++ "." ++ N) "" = A ++ "." ++ N.
Proof.
  intros HA HN Hneq Hdef.
  assert (Hne : A ++ "." ++ N <> "") by (destruct A; discriminate).
  assert (Hup : is_upper_ascii (A ++ "." ++ N) = true).
  { rewrite !is_upper_ascii_app, HA, HN. reflexivity. }
  assert (Hsplit : Split (A ++ "." ++ N) "." = (Split A "." ++ Split N ".")%list).
  { change (A ++ "." ++ N) with (A ++ String "." N). apply Split_app_sep. }
  unfold GetAssetIDFromAsset. rewrite (parse_no_hint _ Hne).
  destruct (splits_native (A ++ "." ++ N)) eqn:Hsp.
  - unfold splits_native in Hsp. cbv zeta in Hsp.
    rewrite Hsplit in Hsp |- *.
    apply andb_true_iff in Hsp as [Hlen Hnat]. apply Nat.eqb_eq in Hlen.
    rewrite length_app in Hlen.
    pose proof (Split_length_pos A ".") as H1.
    pose proof (Split_length_pos N ".") as H2.
    assert (HlA : List.length (Split A ".") = 1) by lia.
    assert (HlN : List.length (Split N ".") = 1) by lia.
    rewrite (Split_length_1 _ _ HlA), (Split_length_1 _ _ HlN) in Hnat |- *.
    cbn [nth app].
    rewrite (ToUpper_fixed A HA), (ToUpper_fixed N HN), Hneq.
    fold (is_native A). now rewrite Hdef.
  - rewrite (dotted_not_native A N).
    change (ToUpper "ETH") with "ETH".
    rewrite (ToUpper_fixed _ Hup).
    fold (is_native (A ++ "." ++ N)). rewrite (dotted_not_native A N).
    destruct (String.eqb_spec (A ++ "." ++ N) "ETH") as [Heq | _]; reflexivity.
Qed.

(** What [parseAssetAndNativeAsset] returns on upper-case input: two
    upper-case strings, the first of which it would not split again. *)
Lemma parse_upper (asset hint : string) :
  is_upper_ascii asset = true ->
  is_upper_ascii hint = true ->
  is_upper_ascii (fst (parseAssetAndNativeAsset asset hint)) = true /\
  is_upper_ascii (snd (parseAssetAndNativeAsset asset hint)) = true /\
  splits_native (fst (parseAssetAndNativeAsset asset hint)) = false.
Proof.
  intros Ha Hh. unfold parseAssetAndNativeAsset.
  destruct ((asset =? "") && (hint =? "")); [repeat split; reflexivity |].
  set (asset' := if (asset =? "") && negb (hint =? "") then hint else asset).
  assert (Ha' : is_upper_ascii asset' = true).
  { subst asset'. destruct ((asset =? "") && negb (hint =? "")); assumption. }
  fold (splits_native asset').
  assert (Hup : forall x, is_upper_ascii x = true -> is_upper_ascii (ToUpper x) = true).
  { intros x Hx. now rewrite (ToUpper_fixed x Hx). }
  destruct (splits_native asset') eqn:Hsp.
  - pose proof (Split_pieces_all _ asset' "." Ha') as Hall.
    pose proof (Split_pieces_whole asset' ".") as Hwhole.
    assert (H0 : is_upper_ascii (nth 0 (Split asset' ".") "") = true).
    { apply (Forall_nth_string (fun x => is_upper_ascii x = true)); auto. }
    assert (H1 : is_upper_ascii (nth 1 (Split asset' ".") "") = true).
    { apply (Forall_nth_string (fun x => is_upper_ascii x = true)); auto. }
    assert (Hw : Split (nth 0 (Split asset' ".") "") "." = [nth 0 (Split asset' ".") ""]).
    { apply (Forall_nth_string (fun x => Split x "." = [x])); auto. }
    cbn [fst snd]. repeat split.
    + exact H0.
    + apply Hup.
      destruct (hint =? "");
        repeat match goal with
               | |- context [if ?b then _ else _] => destruct b
               end; auto.
    + unfold splits_native. cbv zeta. rewrite Hw. reflexivity.
  - cbn [fst snd]. repeat split.
    + exact Ha'.
    + apply Hup.
      repeat match goal with
             | |- context [if ?b then _ else _] => destruct b
             end; auto.
    + exact Hsp.
Qed.

(** What [parseAssetAndNativeAsset] returns on ASCII input: an ASCII
    asset and an upper-case chain. *)
Lemma parse_ascii (asset hint : string) :
  is_ascii asset = true ->
  is_ascii hint = true ->
  is_ascii (fst (parseAssetAndNativeAsset asset hint)) = true /\
  is_upper_ascii (snd (parseAssetAndNativeAsset asset hint)) = true.
Proof.
  intros Ha Hh. unfold parseAssetAndNativeAsset.
  destruct ((asset =? "") && (hint =? "")); [split; reflexivity |].
  set (asset' := if (asset =? "") && negb (hint =? "") then hint else asset).
  assert (Ha' : is_ascii asset' = true).
  { subst asset'. destruct ((asset =? "") && negb (hint =? "")); assumption. }
  pose proof (Split_pieces_all _ asset' "." Ha') as Hall.
  assert (Hnth : forall i, is_ascii (nth i (Split asset' ".") "") = true).
  { intros i. apply (Forall_nth_string (fun x => is_ascii x = true)); auto. }
  match goal with
  | |- context [if ?b then _ else (asset', hint)] => destruct b
  end; cbn [fst snd]; (split; [auto |]); apply ToUpper_upper;
    repeat match goal with
           | |- context [if ?b then _ else _] => destruct b
           end; auto.
Qed.

(** The upper-cased asset and the chain that [GetAssetIDFromAsset]
    compares: when the asset is not split again, the id is a fixed
    point. *)
Lemma recanon_unsplit (A N : string) :
  is_upper_ascii A = true ->
  is_upper_ascii N = true ->
  splits_native A = false ->
  let id := if A =? N then A
            else if (N =? "ETH") && negb (is_native A) then A
                 else A ++ "." ++ N in
  GetAssetIDFromAsset id "" = id.
Proof.
  intros HA HN Hsp. cbv zeta.
  destruct (A =? N) eqn:Heq; [now apply recanon_bare |].
  destruct ((N =? "ETH") && negb (is_native A)) eqn:Hdef;
    [now apply recanon_bare | now apply recanon_dotted].
Qed.




(** C2, at the mixed-case constants. The id of every enumerated native
    asset, with no hint or with itself as hint, is its upper-cased
    spelling.  For ArbETH, AurETH and OptETH that is not the enumerated
    spelling, and it no longer classifies as native. *)
Theorem native_ids_upper_cased :
  map (fun N => GetAssetIDFromAsset N "") native_assets = map ToUpper native_assets /\
  map (fun N => GetAssetIDFromAsset N N) native_assets = map ToUpper native_assets /\
  filter (fun N => negb (ToUpper N =? N)) native_assets = [ArbETH; AurETH; OptETH] /\
  GetAssetIDFromAsset "ArbETH" "" = "ARBETH" /\
  GetAssetIDFromAsset "ArbETH" "ArbETH" = "ARBETH" /\
  GetAssetIDFromAsset "AurETH" "" = "AURETH" /\
  GetAssetIDFromAsset "OptETH" "" = "OPTETH" /\
  Asset_AssetType "ArbETH" = AssetTypeNative /\
  Asset_AssetType "ARBETH" = AssetTypeToken.
Proof. repeat split. Qed.

(** C5. The four documented ids, and the rule behind them.  With
    [symbol] the upper-cased asset and [chain] the chain that
    [parseAssetAndNativeAsset] resolves: a token (the symbol is not the
    chain itself, the native case of [GetAssetIDFromAsset]) on the
    default chain ETH whose symbol is not native has the bare symbol as
    id, and every other token has SYMBOL.CHAIN. *)
Theorem default_chain_omission :
  GetAssetIDFromAsset "USDC" "" = "USDC" /\
  GetAssetIDFromAsset "USDC" "ETH" = "USDC" /\
  GetAssetIDFromAsset "USDC" "SOL" = "USDC.SOL" /\
  GetAssetIDFromAsset "USDC.SOL" "" = "USDC.SOL" /\
  (forall asset nativeHint symbol chain : string,
      symbol = ToUpper (fst (parseAssetAndNativeAsset asset nativeHint)) ->
      chain = snd (parseAssetAndNativeAsset asset nativeHint) ->
      symbol <> chain ->
      (chain = "ETH" /\ Asset_AssetType symbol = AssetTypeToken ->
       GetAssetIDFromAsset asset nativeHint = symbol) /\
      (~ (chain = "ETH" /\ Asset_AssetType symbol = AssetTypeToken) ->
       GetAssetIDFromAsset asset nativeHint = symbol ++ "." ++ chain)).
Proof.
  repeat (split; [reflexivity |]).
  intros asset nativeHint symbol chain Hs Hc Hneq.
  unfold GetAssetIDFromAsset.
  destruct (parseAssetAndNativeAsset asset nativeHint) as [a n].
  cbn [fst snd] in Hs, Hc. subst symbol chain.
  apply String.eqb_neq in Hneq. rewrite Hneq.
  destruct (String.eqb_spec n "ETH") as [-> | Hn];
    destruct (Asset_AssetType (ToUpper a)); cbn;
    split; intros H; try reflexivity; try tauto;
    destruct H; congruence.
Qed.

Lemma default_chain_omission_witness :
  GetAssetIDFromAsset "wbtc" "ETH" = "WBTC" /\
  GetAssetIDFromAsset "wbtc" "MATIC" = "WBTC.MATIC".
Proof.
  pose proof (proj2 (proj2 (proj2 (proj2 default_chain_omission)))) as rule.
  split.
  - apply (rule "wbtc" "ETH" "WBTC" "ETH" eq_refl eq_refl); [discriminate |].
    split; reflexivity.
  - apply (rule "wbtc" "MATIC" "WBTC" "MATIC" eq_refl eq_refl); [discriminate |].
    intros [H _]. discriminate H.
Defined.

End AssetProps.

(** ** Amounts *)

Module AmountProps.
Import crosschain.
Open Scope Z_scope.

Lemma Uint64_low_bits (v : Z) :
  AmountBlockchain_Uint64 v = Z.abs v mod uint64_modulus.
Proof.
  unfold AmountBlockchain_Uint64, big_Int_Uint64, uint64_modulus.
  change (2 ^ 64 - 1) with (Z.ones 64). apply Z.land_ones. lia.
Qed.

Lemma Uint64_is_uint64 (v : Z) : is_uint64 (AmountBlockchain_Uint64 v).
Proof.
  rewrite Uint64_low_bits. unfold is_uint64, uint64_modulus.
  apply Z.mod_pos_bound. lia.
Qed.

(** C9, as stated, fails: [Uint64] keeps the low 64 bits of the
    magnitude, so it is not exact on 2^64, nor on a negative amount. *)
Lemma Uint64_truncates :
  AmountBlockchain_Uint64 (2 ^ 64) = 0 /\
  AmountBlockchain_Uint64 (2 ^ 64 + 5) = 5 /\
  AmountBlockchain_Uint64 (-1) = 1 /\
  AmountBlockchain_Uint64 (2 ^ 64) <> 2 ^ 64.
Proof. repeat split. discriminate. Qed.

(** C9, amended. [Uint64] returns exactly the integer the amount
    represents on the amounts that a uint64 can hold (0 <= v < 2^64),
    and on no other; [Uint64] after [NewAmountBlockchainFromUint64] is
    the identity on uint64 values. *)
Theorem Uint64_exact_in_range (v : Z) :
  (AmountBlockchain_Uint64 v = v <-> is_uint64 v) /\
  (is_uint64 v ->
   AmountBlockchain_Uint64 (NewAmountBlockchainFromUint64 v) = v).
Proof.
  assert (H : is_uint64 v -> AmountBlockchain_Uint64 v = v).
  { intros [Hlo Hhi]. rewrite Uint64_low_bits, Z.abs_eq by assumption.
    apply Z.mod_small. split; assumption. }
  split; [split |]; [| exact H | exact H].
  intros Heq. rewrite <- Heq. apply Uint64_is_uint64.
Qed.

Lemma Uint64_exact_in_range_witness :
  is_uint64 18446744073709551615 /\
  AmountBlockchain_Uint64 18446744073709551615 = 18446744073709551615 /\
  AmountBlockchain_Uint64 (NewAmountBlockchainFromUint64 18446744073709551615)
    = 18446744073709551615.
Proof.
  assert (H : is_uint64 18446744073709551615).
  { unfold is_uint64, uint64_modulus. split; [discriminate | reflexivity]. }
  split; [exact H |].
  split.
  - exact (proj2 (proj1 (Uint64_exact_in_range 18446744073709551615)) H).
  - exact (proj2 (Uint64_exact_in_range 18446744073709551615) H).
Defined.

End AmountProps.

(** ** The cosmos adapter *)

Module CosmosProps.
Import Go cosmos.

(** *** Sighash and AddSignature before the build *)

(** C6. [Sighash] returns the "transaction not initialized" error, and a
    nil payload, exactly when [TxDataToSign] is nil; otherwise it
    returns that payload and no error.  [AddSignature] returns the
    "transaction not initialized" error when the signer slots are nil or
    empty or the builder is nil, and returns no other error; it does not
    panic then. *)
Theorem uninitialized_errors (tx : Tx) (signature : xc.TxSignature) :
  (Sighash tx = (None, Some "transaction not initialized") <-> TxDataToSign tx = None) /\
  (snd (Sighash tx) <> None <-> TxDataToSign tx = None) /\
  (forall payload, TxDataToSign tx = Some payload ->
                   Sighash tx = (Some payload, None)) /\
  ((SigsV2 tx = None \/ len (SigsV2 tx) = 0 \/ CosmosTxBuilder tx = None) ->
   AddSignature tx signature = Returns (tx, Some "transaction not initialized")) /\
  (forall tx' err, AddSignature tx signature = Returns (tx', Some err) ->
                   (SigsV2 tx = None \/ len (SigsV2 tx) = 0 \/ CosmosTxBuilder tx = None)
                   /\ tx' = tx /\ err = "transaction not initialized").
Proof.
  unfold Sighash, AddSignature, not_initialized, errors_New.
  destruct tx as [ctx parsed builder encoder sigs payload].
  cbn [TxDataToSign SigsV2 CosmosTxBuilder].
  split; [| split; [| split; [| split]]].
  - destruct payload; cbn; split; intros H;
      first [discriminate H | reflexivity].
  - destruct payload; cbn; split; intros H;
      first [discriminate H | reflexivity | now elim H].
  - intros p ->. reflexivity.
  - intros [-> | [H | ->]].
    + reflexivity.
    + destruct sigs as [[| s0 l] |]; [reflexivity | discriminate H | reflexivity].
    + now rewrite !orb_true_r.
  - intros tx' err H.
    destruct sigs as [[| s0 l] |]; cbn in H |- *;
      try (injection H as <- <-; auto).
    destruct builder; cbn in H |- *;
      try (injection H as <- <-; auto).
    destruct (Data s0) as [| [single |] |]; discriminate H.
Qed.

(** *** Hash *)

Lemma hex_EncodeToString_length (src : list byte) :
  String.length (hex_EncodeToString src) = 2 * List.length src.
Proof. induction src as [| v src IH]; simpl; [reflexivity | rewrite IH; lia]. Qed.

Section HashSentinel.

Variable tmhash_Sum : list byte -> list byte.
Hypothesis tmhash_Sum_size :
  forall bz, List.length (tmhash_Sum bz) = tmhash_Size.

(** C7. [Hash] returns the empty string exactly when [Serialize]
    returns an error, nil or no bytes; otherwise it returns the hex
    encoding of the digest of the serialized bytes, which is not
    empty (64 characters).  [Hash] is a total function to [TxHash]:
    it has no error result and no panicking step. *)
Theorem Hash_empty_sentinel (tx : Tx) :
  (Hash tmhash_Sum tx = "" <->
   snd (Serialize tx) <> None \/ fst (Serialize tx) = None
   \/ len (fst (Serialize tx)) = 0) /\
  (forall bz, Serialize tx = (Some bz, None) -> bz <> [] ->
              Hash tmhash_Sum tx = hex_EncodeToString (tmhash_Sum bz) /\
              Hash tmhash_Sum tx <> "" /\
              String.length (Hash tmhash_Sum tx) = 64).
Proof.
  assert (Hlen : forall bz,
             String.length (hex_EncodeToString (tmhash_Sum bz)) = 64).
  { intros bz. now rewrite hex_EncodeToString_length, tmhash_Sum_size. }
  assert (Hne : forall bz, hex_EncodeToString (tmhash_Sum bz) <> "").
  { intros bz H. specialize (Hlen bz). rewrite H in Hlen. discriminate Hlen. }
  unfold Hash. destruct (Serialize tx) as [serialized err]. cbn [fst snd].
  split.
  - destruct err as [e |]; cbn.
    { split; [intros _; left; discriminate | reflexivity]. }
    destruct serialized as [[| b bz] |]; cbn.
    + split; [intros _; right; right; reflexivity | reflexivity].
    + split; [intros H; now apply Hne in H |].
      intros [H | [H | H]]; [now elim H | discriminate H | discriminate H].
    + split; [intros _; right; left; reflexivity | reflexivity].
  - intros bz [= -> ->] Hbz.
    destruct bz as [| b bz]; [now elim Hbz |]. cbn.
    repeat split; [apply Hne | apply Hlen].
Qed.

End HashSentinel.

Lemma Hash_empty_sentinel_witness :
  (forall bz, List.length (zero_digest bz) = tmhash_Size) /\
  Hash zero_digest encoded_Tx = hex_EncodeToString (zero_digest [x2a]) /\
  Hash zero_digest encoded_Tx <> "" /\
  String.length (Hash zero_digest encoded_Tx) = 64.
Proof.
  split; [intros bz; reflexivity |].
  apply (proj2 (Hash_empty_sentinel zero_digest (fun bz => eq_refl) encoded_Tx)
           [x2a] eq_refl).
  discriminate.
Defined.

(** *** Address derivation *)


(** *** Transfer projection *)

Lemma set_ParsedTransfer_twice (tx : Tx) (m m' : Msg) :
  set_ParsedTransfer (set_ParsedTransfer tx m) m' = set_ParsedTransfer tx m'.
Proof. reflexivity. Qed.

Lemma set_ParsedTransfer_same (tx : Tx) :
  set_ParsedTransfer tx (ParsedTransfer tx) = tx.
Proof. now destruct tx. Qed.

(** The loop changes [ParsedTransfer] only. *)
Lemma ParseTransfer_loop_frame (msgs : list Msg) (tx : Tx) :
  fold_left ParseTransfer_step msgs tx =
    set_ParsedTransfer tx
      (ParsedTransfer (fold_left ParseTransfer_step msgs tx)).
Proof.
  revert tx. induction msgs as [| msg msgs IH]; intros tx; simpl.
  - now rewrite set_ParsedTransfer_same.
  - rewrite IH at 1. destruct msg; reflexivity.
Qed.

(** Messages of other kinds leave the projection as it is. *)
Lemma ParseTransfer_loop_skips (msgs : list Msg) (tx : Tx) :
  forallb (fun m => negb (is_MsgSend m)) msgs = true ->
  fold_left ParseTransfer_step msgs tx = tx.
Proof.
  revert tx. induction msgs as [| msg msgs IH]; intros tx H; simpl in *.
  - reflexivity.
  - apply andb_true_iff in H as [Hm Hrest].
    destruct msg; try discriminate Hm; now apply IH.
Qed.

(** C3, as stated, fails: in a transaction of two transfers (alice to
    bob first, then carol to dave) the loop of [ParseTransfer] has no
    exit, and the projection read back is the second transfer. *)
Lemma ParseTransfer_not_first :
  option_map GetMsgs (CosmosTx two_sends_Tx) =
    Some [Msg_MsgSend (Some send_alice_bob); Msg_other "MsgDelegate";
          Msg_MsgSend (Some send_carol_dave)] /\
  ParseTransfer two_sends_Tx =
    Returns (set_ParsedTransfer two_sends_Tx (Msg_MsgSend (Some send_carol_dave))) /\
  (let tx' := set_ParsedTransfer two_sends_Tx (Msg_MsgSend (Some send_carol_dave)) in
   From tx' = Returns "carol" /\ To tx' = Returns "dave" /\ Amount tx' = Returns 2%Z /\
   From tx' <> Returns (MsgSend_FromAddress send_alice_bob)).
Proof. repeat split. discriminate. Qed.

(** What the loop stores when the last [MsgSend] of the list is known. *)
Lemma ParseTransfer_at_last
  (tx : Tx) (cosmosTx : sdk_Tx) (before after : list Msg) (p : option MsgSend) :
  CosmosTx tx = Some cosmosTx ->
  GetMsgs cosmosTx = (before ++ Msg_MsgSend p :: after)%list ->
  forallb (fun m => negb (is_MsgSend m)) after = true ->
  ParseTransfer tx = Returns (set_ParsedTransfer tx (Msg_MsgSend p)).
Proof.
  intros Htx Hmsgs Hafter.
  unfold ParseTransfer. rewrite Htx, Hmsgs, fold_left_app. cbn [fold_left].
  rewrite (ParseTransfer_loop_skips after _ Hafter).
  cbn [ParseTransfer_step].
  rewrite (ParseTransfer_loop_frame before tx).
  now rewrite set_ParsedTransfer_twice.
Qed.

(** A list that holds a [MsgSend] has a last one. *)
Lemma last_MsgSend (msgs : list Msg) :
  existsb is_MsgSend msgs = true ->
  exists before p after,
    msgs = (before ++ Msg_MsgSend p :: after)%list /\
    forallb (fun m => negb (is_MsgSend m)) after = true.
Proof.
  induction msgs as [| msg msgs IH]; simpl; intros H; [discriminate H |].
  destruct (existsb is_MsgSend msgs) eqn:Hrest.
  - destruct (IH eq_refl) as [before [p [after [-> Hafter]]]].
    exists (msg :: before), p, after. split; [reflexivity | exact Hafter].
  - rewrite orb_false_r in H. destruct msg as [| p |]; try discriminate H.
    exists [], p, msgs. split; [reflexivity |].
    clear -Hrest. induction msgs as [| m msgs IH]; simpl in *; [reflexivity |].
    apply orb_false_iff in Hrest as [-> Hrest]. now rewrite IH.
Qed.

(** C3, amended. Last-transfer projection: when the message list of the
    transaction holds one or more [MsgSend] messages, [ParseTransfer]
    stores the last of them, whatever precedes it and whatever messages
    of other kinds follow it; [From] and [To] then return its addresses
    and [Amount] the amount of its first coin. *)
Theorem ParseTransfer_last_transfer (tx : Tx) (cosmosTx : sdk_Tx) :
  CosmosTx tx = Some cosmosTx ->
  existsb is_MsgSend (GetMsgs cosmosTx) = true ->
  exists before p after,
    GetMsgs cosmosTx = (before ++ Msg_MsgSend p :: after)%list /\
    forallb (fun m => negb (is_MsgSend m)) after = true /\
    ParseTransfer tx = Returns (set_ParsedTransfer tx (Msg_MsgSend p)) /\
    (forall tf, p = Some tf ->
       From (set_ParsedTransfer tx (Msg_MsgSend p)) = Returns (MsgSend_FromAddress tf) /\
       To (set_ParsedTransfer tx (Msg_MsgSend p)) = Returns (MsgSend_ToAddress tf) /\
       (forall c cs amount,
           MsgSend_Amount tf = c :: cs -> Coin_Amount c = Some amount ->
           Amount (set_ParsedTransfer tx (Msg_MsgSend p)) = Returns amount)).
Proof.
  intros Htx Hsome.
  destruct (last_MsgSend _ Hsome) as [before [p [after [Hmsgs Hafter]]]].
  exists before, p, after.
  split; [exact Hmsgs |]. split; [exact Hafter |].
  split; [exact (ParseTransfer_at_last tx cosmosTx before after p Htx Hmsgs Hafter) |].
  intros tf ->. split; [reflexivity |]. split; [reflexivity |].
  intros c cs amount Hc Ha. cbn. rewrite Hc. cbn. now rewrite Ha.
Qed.

Lemma ParseTransfer_last_transfer_witness :
  ParseTransfer two_sends_Tx =
    Returns (set_ParsedTransfer two_sends_Tx (Msg_MsgSend (Some send_carol_dave))) /\
  From (set_ParsedTransfer two_sends_Tx (Msg_MsgSend (Some send_carol_dave)))
    = Returns "carol" /\
  To (set_ParsedTransfer two_sends_Tx (Msg_MsgSend (Some send_carol_dave)))
    = Returns "dave" /\
  Amount (set_ParsedTransfer two_sends_Tx (Msg_MsgSend (Some send_carol_dave)))
    = Returns 2%Z.
Proof.
  destruct (ParseTransfer_last_transfer two_sends_Tx
              {| GetMsgs := [Msg_MsgSend (Some send_alice_bob);
                             Msg_other "MsgDelegate";
                             Msg_MsgSend (Some send_carol_dave)];
                 GetFee := Some [coin 7];
                 GetSignaturesV2 := [] |}
              eq_refl eq_refl)
    as [before [p [after [Hmsgs [Hafter [Hparse Hread]]]]]].
  assert (Hp : p = Some send_carol_dave).
  { cbn in Hparse. unfold set_ParsedTransfer in Hparse. congruence. }
  subst p.
  destruct (Hread send_carol_dave eq_refl) as [Hfrom [Hto Hamount]].
  split; [exact Hparse |]. split; [exact Hfrom |]. split; [exact Hto |].
  exact (Hamount (coin 2) [] 2%Z eq_refl eq_refl).
Defined.

(** *** Panics of the accessors *)

(** C4, at three inputs. [Amount] panics on a parsed transfer with an
    empty coin list, [Fee] on a fee-bearing transaction with an empty
    fee list (both index position 0 unguarded), and [AddSignature] on a
    first signer slot that holds multi-signature data (an unchecked type
    assertion). *)
Theorem accessors_panic :
  Amount no_coins_Tx = Panics "index out of range" /\
  Fee no_fee_Tx = Panics "index out of range" /\
  AddSignature multisig_Tx (Some [x01]) = Panics "interface conversion".
Proof. repeat split. Qed.

End CosmosProps.

(* ================================================================= *)
(** * Further properties of the asset and amount model *)

Module AssetMore.
Import crosschain strings StringProps AssetProps.

Lemma upper_byte_idem (c : ascii) : upper_byte (upper_byte c) = upper_byte c.
Proof. destruct c as [[] [] [] [] [] [] [] []]; reflexivity. Qed.

Lemma ToUpper_idem (s : string) : ToUpper (ToUpper s) = ToUpper s.
Proof.
  induction s as [| c s IH]; simpl; [reflexivity |].
  now rewrite upper_byte_idem, IH.
Qed.

Lemma ToUpper_eqb_empty (s : string) : (ToUpper s =? "") = (s =? "").
Proof. destruct s; reflexivity. Qed.

Lemma ToUpper_nonempty (s : string) : s <> "" -> ToUpper s <> "".
Proof. destruct s; [congruence | discriminate]. Qed.

(** A string without the separator is one piece. *)
Lemma Split_no_sep (s : string) (sep : ascii) :
  all_bytes (fun c => negb (Ascii.eqb c sep)) s = true -> Split s sep = [s].
Proof.
  induction s as [| c s IH]; simpl; intros H; [reflexivity |].
  apply andb_true_iff in H as [Hc Hs]. apply negb_true_iff in Hc.
  now rewrite Hc, (IH Hs).
Qed.

(** The first piece is empty only for the empty string and for a string
    that starts with the separator. *)
Lemma Split_first_empty (s : string) (sep : ascii) :
  nth 0 (Split s sep) "" = "" -> s = "" \/ exists rest, s = String sep rest.
Proof.
  destruct s as [| c s]; [now left |]. simpl.
  destruct (Ascii.eqb_spec c sep) as [-> | Hc].
  - intros _. right. now exists s.
  - destruct (Split_cons s sep) as [h [t ->]]. simpl. discriminate.
Qed.

(** The asset that [parseAssetAndNativeAsset] works on: the hint stands
    in for an empty asset. *)
Lemma parse_effective (asset hint : string) :
  parseAssetAndNativeAsset asset hint =
    parseAssetAndNativeAsset (if asset =? "" then hint else asset) hint.
Proof.
  destruct (String.eqb_spec asset "") as [-> | Hne]; [| reflexivity].
  unfold parseAssetAndNativeAsset. cbn [String.eqb andb].
  destruct (hint =? "") eqn:Hh; reflexivity.
Qed.

(** [parseAssetAndNativeAsset] on a non-empty asset, by the test on the
    pieces. *)
Lemma parse_nonempty (asset hint : string) :
  asset <> "" ->
  parseAssetAndNativeAsset asset hint =
    if splits_native asset
    then (nth 0 (Split asset ".") "",
          ToUpper (if hint =? "" then nth 1 (Split asset ".") "" else hint))
    else (asset,
          ToUpper (if hint =? "" then (if is_native asset then asset else "ETH")
                   else hint)).
Proof.
  intros Hne. apply String.eqb_neq in Hne.
  unfold parseAssetAndNativeAsset. rewrite Hne. cbn [andb].
  fold (splits_native asset).
  destruct (splits_native asset) eqn:Hsp.
  - unfold splits_native in Hsp. apply andb_true_iff in Hsp as [_ Hnat].
    fold (is_native (nth 1 (Split asset ".") "")) in Hnat.
    apply is_native_nonempty, String.eqb_neq in Hnat.
    destruct (hint =? "") eqn:Hh; cbv iota; [now rewrite Hnat | now rewrite Hh].
  - fold (is_native asset). reflexivity.
Qed.

(** The id of ASCII input is an upper-case ASCII string. *)
Lemma id_upper (asset hint : string) :
  is_ascii asset = true ->
  is_ascii hint = true ->
  is_upper_ascii (GetAssetIDFromAsset asset hint) = true.
Proof.
  intros Ha Hh. destruct (parse_ascii asset hint Ha Hh) as [HA HN].
  unfold GetAssetIDFromAsset.
  destruct (parseAssetAndNativeAsset asset hint) as [a n]. cbn [fst snd] in HA, HN.
  apply ToUpper_upper in HA.
  repeat match goal with
         | |- context [if ?b then _ else _] => destruct b
         end; try assumption.
  now rewrite !is_upper_ascii_app, HA, HN.
Qed.

(** X1. An empty id needs an empty symbol: with no asset and no hint
    the id is empty, and when the asset (or, for an empty asset, the
    hint standing in for it) is not empty and does not start with ".",
    the id is not empty. *)
Theorem id_empty_only_without_symbol (asset hint : string) :
  (asset = "" -> hint = "" -> GetAssetIDFromAsset asset hint = "") /\
  ((if asset =? "" then hint else asset) <> "" ->
   (forall rest, (if asset =? "" then hint else asset) <> String "." rest) ->
   GetAssetIDFromAsset asset hint <> "").
Proof.
  split; [intros -> ->; reflexivity |].
  intros Hne Hdot. unfold GetAssetIDFromAsset.
  rewrite parse_effective, (parse_nonempty _ hint Hne).
  set (e := if asset =? "" then hint else asset) in *.
  assert (Hout : forall A N : string,
             A <> "" ->
             (if A =? N then A
              else if (N =? "ETH") && negb (AssetType_eqb (Asset_AssetType A) AssetTypeNative)
                   then A else A ++ "." ++ N) <> "").
  { intros A N HA.
    repeat match goal with
           | |- context [if ?b then _ else _] => destruct b
           end; try assumption.
    destruct A; [congruence | discriminate]. }
  destruct (splits_native e).
  - apply Hout, ToUpper_nonempty. intros H0.
    destruct (Split_first_empty e "." H0) as [He | [rest He]]; [auto | exact (Hdot rest He)].
  - apply Hout, ToUpper_nonempty, Hne.
Qed.

Lemma id_empty_only_without_symbol_witness :
  GetAssetIDFromAsset "" "" = "" /\
  GetAssetIDFromAsset "" "sol" <> "" /\
  GetAssetIDFromAsset ".ETH" "" = "".
Proof.
  split; [exact (proj1 (id_empty_only_without_symbol "" "") eq_refl eq_refl) |].
  split; [| reflexivity].
  apply (proj2 (id_empty_only_without_symbol "" "sol")); [discriminate |].
  intros rest. discriminate.
Defined.

(** X2. The chain hint is case-insensitive: for a non-empty asset and an
    ASCII hint, the upper-cased hint resolves to the same asset and
    chain, and gives the same id, as the hint itself. *)
Theorem hint_case_insensitive (asset hint : string) :
  asset <> "" ->
  is_ascii hint = true ->
  parseAssetAndNativeAsset asset (ToUpper hint) = parseAssetAndNativeAsset asset hint /\
  GetAssetIDFromAsset asset (ToUpper hint) = GetAssetIDFromAsset asset hint.
Proof.
  intros Hne _.
  assert (H : parseAssetAndNativeAsset asset (ToUpper hint)
              = parseAssetAndNativeAsset asset hint).
  { rewrite !(parse_nonempty asset _ Hne), ToUpper_eqb_empty.
    destruct (splits_native asset); destruct (hint =? "");
      first [reflexivity | now rewrite ToUpper_idem]. }
  split; [exact H |]. unfold GetAssetIDFromAsset. now rewrite H.
Qed.

Lemma hint_case_insensitive_witness :
  parseAssetAndNativeAsset "usdc" (ToUpper "sol") = parseAssetAndNativeAsset "usdc" "sol" /\
  GetAssetIDFromAsset "usdc" (ToUpper "sol") = GetAssetIDFromAsset "usdc" "sol".
Proof.
  apply (hint_case_insensitive "usdc" "sol"); [discriminate | reflexivity].
Defined.

(** X3. A native suffix is a chain hint, and an explicit hint overrides
    it: for a non-empty symbol without "." and an enumerated native
    asset T, the id of SYMBOL.T with hint h is the id of SYMBOL with
    hint T when h is empty, and with hint h otherwise. *)
Theorem native_suffix_is_hint (symbol T hint : string) :
  symbol <> "" ->
  all_bytes (fun c => negb (Ascii.eqb c ".")) symbol = true ->
  In T native_assets ->
  GetAssetIDFromAsset (symbol ++ "." ++ T) hint
    = GetAssetIDFromAsset symbol (if hint =? "" then T else hint).
Proof.
  intros Hne Hdot HT. apply is_native_In in HT.
  pose proof (Split_no_sep symbol "." Hdot) as Hs.
  pose proof (is_native_whole T HT) as Ht.
  assert (Hne' : symbol ++ "." ++ T <> "") by (destruct symbol; discriminate).
  assert (Hsplit : Split (symbol ++ "." ++ T) "." = [symbol; T]).
  { change (symbol ++ "." ++ T) with (symbol ++ String "." T).
    now rewrite Split_app_sep, Hs, Ht. }
  assert (Hsp : splits_native (symbol ++ "." ++ T) = true).
  { unfold splits_native. cbv zeta. rewrite Hsplit. cbn [List.length Nat.eqb nth andb].
    exact HT. }
  assert (Hsp' : splits_native symbol = false).
  { unfold splits_native. cbv zeta. now rewrite Hs. }
  unfold GetAssetIDFromAsset.
  rewrite (parse_nonempty _ hint Hne'), Hsp, Hsplit.
  rewrite (parse_nonempty symbol _ Hne), Hsp'.
  cbn [nth].
  replace ((if hint =? "" then T else hint) =? "") with false; [reflexivity |].
  symmetry. apply String.eqb_neq.
  destruct (String.eqb_spec hint "") as [_ | Hh]; [| exact Hh].
  exact (is_native_nonempty T HT).
Qed.

Lemma native_suffix_is_hint_witness :
  GetAssetIDFromAsset "USDC.SOL" "" = GetAssetIDFromAsset "USDC" "SOL" /\
  GetAssetIDFromAsset "USDC.SOL" "ETH" = GetAssetIDFromAsset "USDC" "ETH".
Proof.
  assert (Hin : In "SOL" native_assets).
  { apply is_native_In. reflexivity. }
  split.
  - exact (native_suffix_is_hint "USDC" "SOL" "" ltac:(discriminate) eq_refl Hin).
  - exact (native_suffix_is_hint "USDC" "SOL" "ETH" ltac:(discriminate) eq_refl Hin).
Defined.

(** X4. Every id of ASCII input is in upper case: it is an ASCII string
    without lower-case letters, which [ToUpper] leaves as it is. *)
Theorem ids_are_upper_case (asset hint : string) :
  is_ascii asset = true ->
  is_ascii hint = true ->
  is_upper_ascii (GetAssetIDFromAsset asset hint) = true /\
  ToUpper (GetAssetIDFromAsset asset hint) = GetAssetIDFromAsset asset hint.
Proof.
  intros Ha Hh. pose proof (id_upper asset hint Ha Hh) as H.
  split; [exact H | exact (ToUpper_fixed _ H)].
Qed.

Lemma ids_are_upper_case_witness :
  is_upper_ascii (GetAssetIDFromAsset "wBtc.aurEth" "matic") = true /\
  ToUpper (GetAssetIDFromAsset "wBtc.aurEth" "matic")
    = GetAssetIDFromAsset "wBtc.aurEth" "matic".
Proof.
  apply (ids_are_upper_case "wBtc.aurEth" "matic"); reflexivity.
Defined.

(** X5. Canonicalization settles after one more pass: for ASCII input,
    the id of an id (with no hint) is a fixed point, whether or not the
    first id was one. *)
Theorem second_pass_is_fixed_point (asset hint : string) :
  is_ascii asset = true ->
  is_ascii hint = true ->
  GetAssetIDFromAsset
    (GetAssetIDFromAsset (GetAssetIDFromAsset asset hint) "") ""
    = GetAssetIDFromAsset (GetAssetIDFromAsset asset hint) "".
Proof.
  intros Ha Hh.
  pose proof (id_upper asset hint Ha Hh) as Hid.
  set (id1 := GetAssetIDFromAsset asset hint) in *.
  destruct (parse_upper id1 "" Hid eq_refl) as [HA [HN Hsp]].
  unfold GetAssetIDFromAsset at 2 3.
  destruct (parseAssetAndNativeAsset id1 "") as [a n].
  cbn [fst snd] in HA, HN, Hsp.
  rewrite (ToUpper_fixed a HA).
  exact (recanon_unsplit a n HA HN Hsp).
Qed.

Lemma second_pass_is_fixed_point_witness :
  GetAssetIDFromAsset "usdc.eth" "" = "USDC.ETH" /\
  GetAssetIDFromAsset "USDC.ETH" "" = "USDC" /\
  GetAssetIDFromAsset
    (GetAssetIDFromAsset (GetAssetIDFromAsset "usdc.eth" "") "") ""
    = GetAssetIDFromAsset (GetAssetIDFromAsset "usdc.eth" "") "".
Proof.
  split; [reflexivity |]. split; [reflexivity |].
  apply (second_pass_is_fixed_point "usdc.eth" ""); reflexivity.
Defined.

(** X6. Chain shorthand: an empty asset with a hint is the hint taken
    as the asset, and when the hint has no "." the id is the upper-cased
    hint. *)
Theorem chain_shorthand (hint : string) :
  GetAssetIDFromAsset "" hint = GetAssetIDFromAsset hint hint /\
  (all_bytes (fun c => negb (Ascii.eqb c ".")) hint = true ->
   GetAssetIDFromAsset "" hint = ToUpper hint).
Proof.
  assert (H : GetAssetIDFromAsset "" hint = GetAssetIDFromAsset hint hint).
  { unfold GetAssetIDFromAsset. now rewrite (parse_effective "" hint). }
  split; [exact H |].
  intros Hdot. rewrite H.
  destruct (String.eqb_spec hint "") as [-> | Hne]; [reflexivity |].
  unfold GetAssetIDFromAsset. rewrite (parse_nonempty hint hint Hne).
  assert (Hsp : splits_native hint = false).
  { unfold splits_native. cbv zeta. now rewrite (Split_no_sep hint "." Hdot). }
  rewrite Hsp. apply String.eqb_neq in Hne. rewrite Hne.
  now rewrite String.eqb_refl.
Qed.

Lemma chain_shorthand_witness :
  GetAssetIDFromAsset "" "sol" = GetAssetIDFromAsset "sol" "sol" /\
  GetAssetIDFromAsset "" "sol" = ToUpper "sol".
Proof.
  split.
  - exact (proj1 (chain_shorthand "sol")).
  - exact (proj2 (chain_shorthand "sol") eq_refl).
Defined.

(** X7. How the chain is resolved: a non-empty hint always wins and is
    upper-cased; with no hint and a non-empty asset the chain is the
    upper-cased spelling of an enumerated native asset (the suffix, the
    asset itself, or the default ETH); the chain is empty only when asset
    and hint both are. *)
Theorem chain_resolution (asset hint : string) :
  (hint <> "" -> snd (parseAssetAndNativeAsset asset hint) = ToUpper hint) /\
  (hint = "" -> asset <> "" ->
   exists n, In n native_assets /\
             snd (parseAssetAndNativeAsset asset hint) = ToUpper n) /\
  (snd (parseAssetAndNativeAsset asset hint) = "" <-> asset = "" /\ hint = "").
Proof.
  assert (H1 : hint <> "" -> snd (parseAssetAndNativeAsset asset hint) = ToUpper hint).
  { intros Hh. rewrite parse_effective.
    assert (He : (if asset =? "" then hint else asset) <> "").
    { destruct (String.eqb_spec asset ""); assumption. }
    rewrite (parse_nonempty _ hint He). apply String.eqb_neq in Hh.
    destruct (splits_native _); cbn [snd]; now rewrite Hh. }
  assert (H2 : hint = "" -> asset <> "" ->
               exists n, In n native_assets /\
                         snd (parseAssetAndNativeAsset asset hint) = ToUpper n).
  { intros -> Ha. rewrite (parse_nonempty asset "" Ha). cbn [String.eqb].
    destruct (splits_native asset) eqn:Hsp; cbn [snd].
    - unfold splits_native in Hsp. apply andb_true_iff in Hsp as [_ Hnat].
      fold (is_native (nth 1 (Split asset ".") "")) in Hnat.
      apply is_native_In in Hnat. eauto.
    - destruct (is_native asset) eqn:Hnat.
      + apply is_native_In in Hnat. eauto.
      + exists "ETH". split; [apply is_native_In |]; reflexivity. }
  split; [exact H1 |]. split; [exact H2 |].
  split.
  - intros Hc. destruct (String.eqb_spec hint "") as [Hh | Hh].
    + destruct (String.eqb_spec asset "") as [Ha | Ha]; [now split |].
      destruct (H2 Hh Ha) as [n [Hn Heq]]. rewrite Heq in Hc.
      apply is_native_In, is_native_nonempty, ToUpper_nonempty in Hn. contradiction.
    + rewrite (H1 Hh) in Hc. now apply ToUpper_nonempty in Hh.
  - intros [-> ->]. reflexivity.
Qed.

(** X8. The two classifications agree: a string is a native asset
    exactly when it has a known chain type, and a token exactly when its
    chain type is unknown. *)
Theorem native_iff_known_chain (s : string) :
  (Asset_AssetType s = AssetTypeNative <-> NativeAsset_ChainType s <> ChainTypeUnknown) /\
  (Asset_AssetType s = AssetTypeToken <-> NativeAsset_ChainType s = ChainTypeUnknown).
Proof.
  unfold Asset_AssetType, NativeAsset_ChainType.
  destruct (switch_case s utxo_natives); [| destruct (switch_case s account_natives)];
    (split; split; intros H; first [reflexivity | discriminate | now elim H]).
Qed.

(** ** Amounts as decimal strings *)

Lemma to_int_not_nil (v : Z) :
  Z.to_int v <> Decimal.Pos Decimal.Nil /\ Z.to_int v <> Decimal.Neg Decimal.Nil.
Proof.
  destruct v as [| p | p]; cbn; split; try discriminate;
    intros [= H]; exact (DecimalPos.Unsigned.to_uint_nonnil p H).
Qed.

(** X9. [String] is a faithful rendering of the amount: the decimal
    numeral reads back as the same integer, so two amounts with the same
    string are equal. *)
Theorem AmountBlockchain_String_injective (v w : AmountBlockchain) :
  option_map Z.of_int
    (DecimalString.NilZero.int_of_string (AmountBlockchain_String v)) = Some v /\
  (AmountBlockchain_String v = AmountBlockchain_String w -> v = w).
Proof.
  assert (Hread : forall x : Z,
             option_map Z.of_int
               (DecimalString.NilZero.int_of_string (AmountBlockchain_String x)) = Some x).
  { intros x. unfold AmountBlockchain_String, big_Int_String.
    destruct (to_int_not_nil x) as [Hp Hn].
    rewrite (DecimalString.NilZero.isi _ Hp Hn). cbn [option_map].
    now rewrite DecimalZ.of_to. }
  split; [apply Hread |].
  intros Heq. pose proof (Hread v) as Hv. rewrite Heq, Hread in Hv. now injection Hv.
Qed.

End AssetMore.

(* ================================================================= *)
(** * Further properties of the cosmos adapter *)

Module CosmosMore.
Import Go cosmos CosmosProps.

(** ** ParseTransfer *)

Lemma last_cons_default {A : Type} (a d : A) (l : list A) :
  last (a :: l) d = last l a.
Proof.
  revert a d. induction l as [| b l IH]; intros a d; [reflexivity |].
  change (last (a :: b :: l) d) with (last (b :: l) d). now rewrite !IH.
Qed.

(** The loop of [ParseTransfer] in closed form. *)
Lemma ParseTransfer_loop_last (msgs : list Msg) (tx : Tx) :
  fold_left ParseTransfer_step msgs tx =
    set_ParsedTransfer tx (last (filter is_MsgSend msgs) (ParsedTransfer tx)).
Proof.
  revert tx. induction msgs as [| msg msgs IH]; intros tx.
  - cbn. now rewrite set_ParsedTransfer_same.
  - cbn [fold_left]. rewrite IH.
    destruct msg as [| p | kind]; cbn [ParseTransfer_step filter is_MsgSend];
      try reflexivity.
    now rewrite last_cons_default.
Qed.

Lemma no_MsgSend_filter (msgs : list Msg) :
  existsb is_MsgSend msgs = false -> filter is_MsgSend msgs = [].
Proof.
  induction msgs as [| msg msgs IH]; cbn; [reflexivity |].
  intros H. apply orb_false_iff in H as [-> H]. exact (IH H).
Qed.

(** X10. [ParseTransfer] in closed form: it panics exactly on a nil
    [CosmosTx]; otherwise it changes [ParsedTransfer] only, to the last
    of the [MsgSend] messages of the transaction, and keeps the previous
    [ParsedTransfer] when there is none. *)
Theorem ParseTransfer_closed_form (tx : Tx) :
  ((exists reason, ParseTransfer tx = Panics reason) <-> CosmosTx tx = None) /\
  (forall cosmosTx,
      CosmosTx tx = Some cosmosTx ->
      ParseTransfer tx =
        Returns (set_ParsedTransfer tx
                   (last (filter is_MsgSend (GetMsgs cosmosTx)) (ParsedTransfer tx)))).
Proof.
  unfold ParseTransfer. split.
  - destruct (CosmosTx tx); split.
    + intros [reason H]. discriminate H.
    + discriminate.
    + reflexivity.
    + intros _. eauto.
  - intros cosmosTx ->. now rewrite ParseTransfer_loop_last.
Qed.

(** X11. Zero projection: when no message of the transaction is a
    [MsgSend], [ParseTransfer] returns the transaction as it is; with
    nothing parsed before, [From] and [To] are then the empty address and
    [Amount] is zero, and none of them panics. *)
Theorem ParseTransfer_zero_projection (tx : Tx) (cosmosTx : sdk_Tx) :
  CosmosTx tx = Some cosmosTx ->
  existsb is_MsgSend (GetMsgs cosmosTx) = false ->
  ParseTransfer tx = Returns tx /\
  (ParsedTransfer tx = Msg_nil ->
   From tx = Returns "" /\ To tx = Returns "" /\ Amount tx = Returns 0%Z).
Proof.
  intros Htx Hnone. split.
  - unfold ParseTransfer. rewrite Htx, ParseTransfer_loop_last.
    rewrite (no_MsgSend_filter _ Hnone). cbn [last].
    now rewrite set_ParsedTransfer_same.
  - unfold From, To, Amount. intros ->. repeat split.
Qed.

Lemma ParseTransfer_zero_projection_witness :
  ParseTransfer no_sends_Tx = Returns no_sends_Tx /\
  From no_sends_Tx = Returns "" /\ To no_sends_Tx = Returns "" /\
  Amount no_sends_Tx = Returns 0%Z.
Proof.
  destruct (ParseTransfer_zero_projection no_sends_Tx
              {| GetMsgs := [Msg_other "MsgDelegate"; Msg_other "MsgVote"];
                 GetFee := None; GetSignaturesV2 := [] |} eq_refl eq_refl)
    as [Hparse Hzero].
  split; [exact Hparse | exact (Hzero eq_refl)].
Defined.

Section ParseTransferFrame.

Variable tmhash_Sum : list byte -> list byte.

(** X12. [ParseTransfer] is idempotent and touches nothing else: parsing
    the parsed transaction again returns it unchanged, and [Serialize],
    [Hash], [Sighash] and [Fee] give the same results after parsing as
    before. *)
Theorem ParseTransfer_idempotent_frame (tx tx' : Tx) :
  ParseTransfer tx = Returns tx' ->
  ParseTransfer tx' = Returns tx' /\
  Serialize tx' = Serialize tx /\
  Hash tmhash_Sum tx' = Hash tmhash_Sum tx /\
  Sighash tx' = Sighash tx /\
  Fee tx' = Fee tx.
Proof.
  unfold ParseTransfer. destruct (CosmosTx tx) as [cosmosTx |] eqn:Htx; [| discriminate].
  rewrite ParseTransfer_loop_last. intros [= <-].
  cbn [CosmosTx set_ParsedTransfer]. rewrite Htx.
  split; [| repeat split; unfold Fee; cbn; now rewrite Htx].
  rewrite ParseTransfer_loop_last. cbn [ParsedTransfer set_ParsedTransfer].
  rewrite set_ParsedTransfer_twice. f_equal. f_equal.
  destruct (filter is_MsgSend (GetMsgs cosmosTx)) as [| m l]; [reflexivity |].
  now rewrite !last_cons_default.
Qed.

End ParseTransferFrame.

Lemma ParseTransfer_idempotent_frame_witness :
  ParseTransfer (set_ParsedTransfer two_sends_Tx (Msg_MsgSend (Some send_carol_dave)))
    = Returns (set_ParsedTransfer two_sends_Tx (Msg_MsgSend (Some send_carol_dave))) /\
  Fee (set_ParsedTransfer two_sends_Tx (Msg_MsgSend (Some send_carol_dave)))
    = Fee two_sends_Tx.
Proof.
  destruct (ParseTransfer_idempotent_frame zero_digest two_sends_Tx
              (set_ParsedTransfer two_sends_Tx (Msg_MsgSend (Some send_carol_dave)))
              eq_refl)
    as [Hagain [_ [_ [_ Hfee]]]].
  split; [exact Hagain | exact Hfee].
Defined.

(** ** AddSignature *)

(** The first signer slot with the signature put in, as [AddSignature]
    writes it. *)
Lemma AddSignature_built
  (tx : Tx) (signature : xc.TxSignature)
  (sig0 : SignatureV2) (sigs : list SignatureV2) (builder : TxBuilder)
  (single : SingleSignatureData) :
  SigsV2 tx = Some (sig0 :: sigs) ->
  CosmosTxBuilder tx = Some builder ->
  Data sig0 = SignatureData_Single (Some single) ->
  AddSignature tx signature =
    Returns
      ({| CosmosTx := CosmosTx tx;
          ParsedTransfer := ParsedTransfer tx;
          CosmosTxBuilder :=
            Some (SetSignatures builder
                    ({| PubKey := PubKey sig0;
                        Data := single_data (SignMode single) signature;
                        Sequence := Sequence sig0 |} :: sigs));
          CosmosTxEncoder := CosmosTxEncoder tx;
          SigsV2 :=
            Some ({| PubKey := PubKey sig0;
                     Data := single_data (SignMode single) signature;
                     Sequence := Sequence sig0 |} :: sigs);
          TxDataToSign := TxDataToSign tx |}, None).
Proof.
  intros Hs Hb Hd. unfold AddSignature. rewrite Hs, Hb. cbn. now rewrite Hd.
Qed.

(** A call that returned no error went through the signing branch. *)
Lemma AddSignature_sets_first_slot_inv
  (tx tx' : Tx) (signature : xc.TxSignature) :
  AddSignature tx signature = Returns (tx', None) ->
  exists sig0 sigs builder single,
    SigsV2 tx = Some (sig0 :: sigs) /\
    CosmosTxBuilder tx = Some builder /\
    Data sig0 = SignatureData_Single (Some single) /\
    tx' =
      {| CosmosTx := CosmosTx tx;
         ParsedTransfer := ParsedTransfer tx;
         CosmosTxBuilder :=
           Some (SetSignatures builder
                   ({| PubKey := PubKey sig0;
                       Data := single_data (SignMode single) signature;
                       Sequence := Sequence sig0 |} :: sigs));
         CosmosTxEncoder := CosmosTxEncoder tx;
         SigsV2 :=
           Some ({| PubKey := PubKey sig0;
                    Data := single_data (SignMode single) signature;
                    Sequence := Sequence sig0 |} :: sigs);
         TxDataToSign := TxDataToSign tx |}.
Proof.
  intros H.
  destruct (SigsV2 tx) as [[| sig0 sigs] |] eqn:Hs;
    try (unfold AddSignature in H; rewrite Hs in H; discriminate H).
  destruct (CosmosTxBuilder tx) as [builder |] eqn:Hb;
    [| unfold AddSignature in H; rewrite Hs, Hb in H; discriminate H].
  destruct (Data sig0) as [| [single |] |] eqn:Hd;
    try (unfold AddSignature in H; rewrite Hs, Hb in H; cbn in H;
         rewrite Hd in H; discriminate H).
  rewrite (AddSignature_built tx signature sig0 sigs builder single Hs Hb Hd) in H.
  injection H as <-.
  exists sig0, sigs, builder, single. repeat split. exact Hd.
Qed.

(** X13. The outcomes of [AddSignature] on a built transaction (signer
    slots and builder present): it returns no error exactly when the
    first slot holds non-nil single-signature data, and panics exactly
    when it does not. *)
Theorem AddSignature_outcomes
  (tx : Tx) (signature : xc.TxSignature)
  (sig0 : SignatureV2) (sigs : list SignatureV2) (builder : TxBuilder) :
  SigsV2 tx = Some (sig0 :: sigs) ->
  CosmosTxBuilder tx = Some builder ->
  ((exists tx', AddSignature tx signature = Returns (tx', None)) <->
   (exists single, Data sig0 = SignatureData_Single (Some single))) /\
  ((exists reason, AddSignature tx signature = Panics reason) <->
   (forall single, Data sig0 <> SignatureData_Single (Some single))) /\
  (forall tx' err, AddSignature tx signature <> Returns (tx', Some err)).
Proof.
  intros Hs Hb.
  assert (Hcase : match Data sig0 with
                  | SignatureData_Single (Some _) =>
                      exists tx', AddSignature tx signature = Returns (tx', None)
                  | _ => exists reason, AddSignature tx signature = Panics reason
                  end).
  { unfold AddSignature. rewrite Hs, Hb. cbn.
    destruct (Data sig0) as [| [single |] |]; eauto. }
  destruct (Data sig0) as [| [single |] |]; destruct Hcase as [x Hx]; rewrite Hx.
  all: split; [split | split; [split |]].
  all: try (intros [y Hy]; discriminate Hy).
  all: try (intros; discriminate).
  all: eauto.
  intros H. elim (H single). reflexivity.
Qed.

Lemma AddSignature_outcomes_witness :
  (exists tx', AddSignature built_Tx (Some [x07]) = Returns (tx', None)) /\
  (exists reason, AddSignature multisig_Tx (Some [x07]) = Panics reason).
Proof.
  split.
  - apply (proj1 (AddSignature_outcomes built_Tx (Some [x07]) _ _ _ eq_refl eq_refl)).
    eexists. reflexivity.
  - apply (proj1 (proj2 (AddSignature_outcomes multisig_Tx (Some [x07]) _ _ _
                           eq_refl eq_refl))).
    cbn. discriminate.
Defined.

(** X14. What a successful [AddSignature] changes: the first signer slot
    gets the signature and keeps its sign mode, public key and sequence;
    the other slots, the payload to sign (so [Sighash]), the stored
    transaction, the parsed transfer and the encoder stay as they are;
    and the builder is handed exactly the new slots. *)
Theorem AddSignature_sets_first_slot
  (tx tx' : Tx) (signature : xc.TxSignature) :
  AddSignature tx signature = Returns (tx', None) ->
  exists sig0 sigs builder single,
    SigsV2 tx = Some (sig0 :: sigs) /\
    CosmosTxBuilder tx = Some builder /\
    Data sig0 = SignatureData_Single (Some single) /\
    SigsV2 tx' =
      Some ({| PubKey := PubKey sig0;
               Data := SignatureData_Single
                         (Some {| SignMode := SignMode single;
                                  Signature := signature |});
               Sequence := Sequence sig0 |} :: sigs) /\
    CosmosTxBuilder tx' = Some (SetSignatures builder (elems (SigsV2 tx'))) /\
    TxDataToSign tx' = TxDataToSign tx /\
    Sighash tx' = Sighash tx /\
    CosmosTx tx' = CosmosTx tx /\
    ParsedTransfer tx' = ParsedTransfer tx /\
    CosmosTxEncoder tx' = CosmosTxEncoder tx.
Proof.
  intros H.
  destruct (SigsV2 tx) as [[| sig0 sigs] |] eqn:Hs;
    try (unfold AddSignature in H; rewrite Hs in H; discriminate H).
  destruct (CosmosTxBuilder tx) as [builder |] eqn:Hb;
    [| unfold AddSignature in H; rewrite Hs, Hb in H; discriminate H].
  destruct (Data sig0) as [| [single |] |] eqn:Hd;
    try (unfold AddSignature in H; rewrite Hs, Hb in H; cbn in H;
         rewrite Hd in H; discriminate H).
  rewrite (AddSignature_built tx signature sig0 sigs builder single Hs Hb Hd) in H.
  injection H as <-.
  exists sig0, sigs, builder, single. unfold Sighash, single_data. cbn.
  split; [reflexivity |]. split; [reflexivity |]. split; [exact Hd |].
  repeat (split; [reflexivity |]). reflexivity.
Qed.

Lemma AddSignature_sets_first_slot_witness :
  exists tx',
    AddSignature built_Tx (Some [x07]) = Returns (tx', None) /\
    SigsV2 tx' = Some [ {| PubKey := [x02]; Data := single_data 1 (Some [x07]);
                           Sequence := 5 |} ] /\
    Sighash tx' = (Some [x01; x02], None).
Proof.
  destruct (AddSignature built_Tx (Some [x07])) as [[tx' [err |]] | reason] eqn:H;
    try discriminate H.
  destruct (AddSignature_sets_first_slot built_Tx tx' (Some [x07]) H)
    as [sig0 [sigs [builder [single [Hs [Hb [Hd [Hs' [_ [_ [Hsig _]]]]]]]]]]].
  exists tx'. split; [reflexivity |].
  cbn in Hs, Hd. injection Hs as <- <-. cbn in Hd. injection Hd as <-.
  split; [exact Hs' | exact Hsig].
Defined.

(** X15. Signing again overwrites: after a successful [AddSignature], a
    second [AddSignature] ends exactly as it would have on the unsigned
    transaction (the earlier signature leaves no trace, the slots do not
    grow), and it succeeds too. *)
Theorem AddSignature_overwrites
  (tx tx1 : Tx) (first second : xc.TxSignature) :
  AddSignature tx first = Returns (tx1, None) ->
  AddSignature tx1 second = AddSignature tx second /\
  (exists tx2, AddSignature tx1 second = Returns (tx2, None)) /\
  AddSignature tx1 first = Returns (tx1, None).
Proof.
  intros H.
  destruct (SigsV2 tx) as [[| sig0 sigs] |] eqn:Hs;
    try (unfold AddSignature in H; rewrite Hs in H; discriminate H).
  destruct (CosmosTxBuilder tx) as [builder |] eqn:Hb;
    [| unfold AddSignature in H; rewrite Hs, Hb in H; discriminate H].
  destruct (Data sig0) as [| [single |] |] eqn:Hd;
    try (unfold AddSignature in H; rewrite Hs, Hb in H; cbn in H;
         rewrite Hd in H; discriminate H).
  pose proof (AddSignature_built tx) as Hbuilt.
  rewrite (Hbuilt first sig0 sigs builder single Hs Hb Hd) in H.
  injection H as <-.
  assert (Hagain : forall signature,
             AddSignature
               {| CosmosTx := CosmosTx tx;
                  ParsedTransfer := ParsedTransfer tx;
                  CosmosTxBuilder :=
                    Some (SetSignatures builder
                            ({| PubKey := PubKey sig0;
                                Data := single_data (SignMode single) first;
                                Sequence := Sequence sig0 |} :: sigs));
                  CosmosTxEncoder := CosmosTxEncoder tx;
                  SigsV2 :=
                    Some ({| PubKey := PubKey sig0;
                             Data := single_data (SignMode single) first;
                             Sequence := Sequence sig0 |} :: sigs);
                  TxDataToSign := TxDataToSign tx |} signature
             = AddSignature tx signature).
  { intros signature.
    rewrite (Hbuilt signature sig0 sigs builder single Hs Hb Hd).
    unfold AddSignature, SetSignatures. cbn.
    destruct builder as [[t |]]; reflexivity. }
  split; [apply Hagain |].
  split.
  - rewrite Hagain, (Hbuilt second sig0 sigs builder single Hs Hb Hd). eauto.
  - rewrite Hagain. apply (Hbuilt first sig0 sigs builder single Hs Hb Hd).
Qed.

Lemma AddSignature_overwrites_witness :
  exists tx1,
    AddSignature built_Tx (Some [x07]) = Returns (tx1, None) /\
    AddSignature tx1 (Some [x09]) = AddSignature built_Tx (Some [x09]).
Proof.
  destruct (AddSignature built_Tx (Some [x07])) as [[tx1 [err |]] | reason] eqn:H;
    try discriminate H.
  exists tx1. split; [reflexivity |].
  exact (proj1 (AddSignature_overwrites built_Tx tx1 (Some [x07]) (Some [x09]) H)).
Defined.

(** ** Serialize and Hash *)

Section SerializeHash.

Variable tmhash_Sum : list byte -> list byte.

(** X16. The builder takes precedence: two transactions with the same
    encoder and the same non-nil builder serialize and hash alike,
    whatever their stored [CosmosTx] and other fields are. *)
Theorem Serialize_builder_precedence (tx1 tx2 : Tx) :
  CosmosTxEncoder tx1 = CosmosTxEncoder tx2 ->
  CosmosTxBuilder tx1 = CosmosTxBuilder tx2 ->
  CosmosTxBuilder tx1 <> None ->
  Serialize tx1 = Serialize tx2 /\
  Hash tmhash_Sum tx1 = Hash tmhash_Sum tx2.
Proof.
  intros He Hb Hsome.
  assert (H : Serialize tx1 = Serialize tx2).
  { unfold Serialize. rewrite <- He, <- Hb.
    destruct (CosmosTxBuilder tx1); [reflexivity | now elim Hsome]. }
  split; [exact H |]. unfold Hash. now rewrite H.
Qed.

Lemma hex_digit_is_hex (n : N) : is_hex_digit (hex_digit n) = true.
Proof.
  unfold hex_digit. generalize (N.to_nat n) as k. intros k.
  do 16 (destruct k as [| k]; [reflexivity |]). reflexivity.
Qed.

Lemma hex_EncodeToString_alphabet (src : list byte) :
  strings.all_bytes is_hex_digit (hex_EncodeToString src) = true.
Proof.
  induction src as [| v src IH]; cbn [hex_EncodeToString strings.all_bytes];
    [reflexivity |].
  now rewrite !hex_digit_is_hex, IH.
Qed.

(** X17. A hash is written in lower-case hex: every character of
    [Hash] is one of 0-9, a-f, and their number is even (two per digest
    byte), for any digest function. *)
Theorem Hash_is_lower_hex (tx : Tx) :
  strings.all_bytes is_hex_digit (Hash tmhash_Sum tx) = true /\
  Nat.even (String.length (Hash tmhash_Sum tx)) = true.
Proof.
  unfold Hash. destruct (Serialize tx) as [serialized err].
  destruct (negb (is_nil err) || is_nil serialized || (len serialized =? 0)%nat).
  - split; reflexivity.
  - split; [apply hex_EncodeToString_alphabet |].
    rewrite hex_EncodeToString_length.
    generalize (List.length (tmhash_Sum (elems serialized))) as k. intros k.
    induction k as [| k IH]; [reflexivity |].
    replace (2 * S k) with (S (S (2 * k))) by lia. exact IH.
Qed.

(** The two digits of a byte read back as its two halves. *)
Lemma hex_byte_read (v : byte) :
  exists hi lo : N,
    fromHexChar (hex_digit (N.shiftr (Byte.to_N v) 4)) = Some hi /\
    fromHexChar (hex_digit (N.land (Byte.to_N v) 15)) = Some lo /\
    Byte.to_N v = (16 * hi + lo)%N.
Proof.
  destruct v; do 2 eexists; (split; [reflexivity | split; reflexivity]).
Qed.

Lemma hex_EncodeToString_cons (v : byte) (rest : list byte) :
  hex_EncodeToString (v :: rest) =
    String (hex_digit (N.shiftr (Byte.to_N v) 4))
      (String (hex_digit (N.land (Byte.to_N v) 15)) (hex_EncodeToString rest)).
Proof. reflexivity. Qed.

Lemma hex_EncodeToString_inj (a b : list byte) :
  hex_EncodeToString a = hex_EncodeToString b -> a = b.
Proof.
  revert b. induction a as [| v a IH]; intros [| w b] H; try discriminate H.
  - reflexivity.
  - rewrite !hex_EncodeToString_cons in H. injection H as Hhi Hlo Hrest.
    destruct (hex_byte_read v) as [hv [lv [Hv1 [Hv2 Hv]]]].
    destruct (hex_byte_read w) as [hw [lw [Hw1 [Hw2 Hw]]]].
    assert (Eh : Some hv = Some hw).
    { rewrite <- Hv1, <- Hw1. exact (f_equal fromHexChar Hhi). }
    assert (El : Some lv = Some lw).
    { rewrite <- Hv2, <- Hw2. exact (f_equal fromHexChar Hlo). }
    injection Eh as <-. injection El as <-.
    assert (Hvw : Some v = Some w).
    { rewrite <- (Byte.of_to_N v), <- (Byte.of_to_N w). now rewrite Hv, Hw. }
    injection Hvw as <-. f_equal. exact (IH b Hrest).
Qed.

(** X18. The hash changes exactly when the digest does: for two
    transactions that serialize without error to non-empty bytes, the
    hashes are equal if and only if the digests of the serialized bytes
    are (the hex encoding loses nothing). *)
Theorem Hash_equal_iff_digest (tx1 tx2 : Tx) (bz1 bz2 : list byte) :
  Serialize tx1 = (Some bz1, None) -> bz1 <> [] ->
  Serialize tx2 = (Some bz2, None) -> bz2 <> [] ->
  (Hash tmhash_Sum tx1 = Hash tmhash_Sum tx2 <-> tmhash_Sum bz1 = tmhash_Sum bz2).
Proof.
  intros H1 Hn1 H2 Hn2. unfold Hash. rewrite H1, H2.
  destruct bz1 as [| b1 bz1]; [now elim Hn1 |].
  destruct bz2 as [| b2 bz2]; [now elim Hn2 |].
  cbn. split; [apply hex_EncodeToString_inj | now intros ->].
Qed.

End SerializeHash.

Lemma Serialize_builder_precedence_witness :
  CosmosTx stale_built_Tx <> CosmosTx built_Tx /\
  Serialize built_Tx = Serialize stale_built_Tx /\
  Hash zero_digest built_Tx = Hash zero_digest stale_built_Tx.
Proof.
  split; [discriminate |].
  apply (Serialize_builder_precedence zero_digest built_Tx stale_built_Tx);
    [reflexivity | reflexivity | discriminate].
Defined.

Lemma Hash_equal_iff_digest_witness :
  Hash zero_digest built_Tx = Hash zero_digest encoded_Tx <->
  zero_digest [x2a] = zero_digest [x2a].
Proof.
  apply (Hash_equal_iff_digest zero_digest built_Tx encoded_Tx [x2a] [x2a]);
    first [reflexivity | discriminate].
Defined.

(** ** Fee and the projection accessors *)

(** X19. [Fee] by cases: zero for a nil transaction and for one without
    the fee capability; the amount of the first fee coin, whatever coins
    follow it; and a panic exactly when the transaction is fee-bearing
    and its fee list is empty or its first amount is nil. *)
Theorem Fee_cases (tx : Tx) :
  (CosmosTx tx = None -> Fee tx = Returns 0%Z) /\
  (forall t, CosmosTx tx = Some t -> GetFee t = None -> Fee tx = Returns 0%Z) /\
  (forall t c rest amount,
      CosmosTx tx = Some t -> GetFee t = Some (c :: rest) ->
      Coin_Amount c = Some amount -> Fee tx = Returns amount) /\
  ((exists reason, Fee tx = Panics reason) <->
   (exists t, CosmosTx tx = Some t /\
              (GetFee t = Some [] \/
               exists c rest, GetFee t = Some (c :: rest) /\ Coin_Amount c = None))).
Proof.
  unfold Fee.
  split; [now intros -> |].
  split; [now intros t -> -> |].
  split; [intros t c rest amount -> -> Ha; cbn; now rewrite Ha |].
  destruct (CosmosTx tx) as [t |].
  - destruct (GetFee t) as [[| c rest] |] eqn:Hfee; cbn.
    + split; [intros _; exists t; auto | eauto].
    + destruct (Coin_Amount c) as [amount |] eqn:Ha.
      * split; [intros [reason H]; discriminate H |].
        intros [t' [[= <-] [H | [c' [rest' [H Hnil]]]]]]; rewrite Hfee in H;
          [discriminate H | injection H as <- <-; congruence].
      * split; [intros _; exists t; split; [reflexivity |]; right; eauto | eauto].
    + split; [intros [reason H]; discriminate H |].
      intros [t' [[= <-] [H | [c' [rest' [H _]]]]]]; rewrite Hfee in H; discriminate H.
  - split; [intros [reason H]; discriminate H |].
    intros [t [H _]]. discriminate H.
Qed.

(** X20. When the projection accessors panic: [From] and [To] exactly on
    a parsed transfer that is a nil [MsgSend] pointer, [Amount] exactly
    then or on a [MsgSend] whose coin list is empty or whose first amount
    is nil.  On a nil or unrecognized parsed transfer none of them
    panics. *)
Theorem projection_panics (tx : Tx) :
  ((exists reason, From tx = Panics reason) <-> ParsedTransfer tx = Msg_MsgSend None) /\
  ((exists reason, To tx = Panics reason) <-> ParsedTransfer tx = Msg_MsgSend None) /\
  ((exists reason, Amount tx = Panics reason) <->
   ParsedTransfer tx = Msg_MsgSend None \/
   exists tf, ParsedTransfer tx = Msg_MsgSend (Some tf) /\
              (MsgSend_Amount tf = [] \/
               exists c rest, MsgSend_Amount tf = c :: rest /\ Coin_Amount c = None)).
Proof.
  unfold From, To, Amount.
  destruct (ParsedTransfer tx) as [| [tf |] | kind].
  - repeat split; try (intros [reason H]; discriminate H); try discriminate.
    intros [H | [tf [H _]]]; discriminate H.
  - split; [| split].
    + split; [intros [reason H]; discriminate H | discriminate].
    + split; [intros [reason H]; discriminate H | discriminate].
    + destruct (MsgSend_Amount tf) as [| c rest] eqn:Hcoins; cbn.
      * split; [intros _; right; exists tf; auto | eauto].
      * destruct (Coin_Amount c) as [amount |] eqn:Ha.
        -- split; [intros [reason H]; discriminate H |].
           intros [H | [tf' [[= <-] [H | [c' [rest' [H Hnil]]]]]]];
             [discriminate H | rewrite Hcoins in H; discriminate H |].
           rewrite Hcoins in H. injection H as <- <-. congruence.
        -- split; [| eauto].
           intros _. right. exists tf. split; [reflexivity |]. right. eauto.
  - repeat split; eauto.
  - repeat split; try (intros [reason H]; discriminate H); try discriminate.
    intros [H | [tf [H _]]]; discriminate H.
Qed.

(** ** Parsing and signing together *)

(** X21. Parsing the transfer and adding a signature commute: when both
    succeed on a transaction, signing the parsed transaction and parsing
    the signed one end in the same transaction, the signed one with the
    parsed transfer stored. *)
Theorem parse_and_sign_commute
  (tx parsed signed : Tx) (signature : xc.TxSignature) :
  ParseTransfer tx = Returns parsed ->
  AddSignature tx signature = Returns (signed, None) ->
  AddSignature parsed signature
    = Returns (set_ParsedTransfer signed (ParsedTransfer parsed), None) /\
  ParseTransfer signed
    = Returns (set_ParsedTransfer signed (ParsedTransfer parsed)).
Proof.
  intros Hparse Hsign.
  destruct (CosmosTx tx) as [cosmosTx |] eqn:Htx;
    [| unfold ParseTransfer in Hparse; rewrite Htx in Hparse; discriminate Hparse].
  unfold ParseTransfer in Hparse. rewrite Htx, ParseTransfer_loop_last in Hparse.
  injection Hparse as <-.
  destruct (AddSignature_sets_first_slot_inv tx signed signature Hsign)
    as [sig0 [sigs [builder [single [Hs [Hb [Hd Hsigned]]]]]]].
  subst signed. split.
  - apply (AddSignature_built (set_ParsedTransfer tx _) signature sig0 sigs builder single);
      assumption.
  - unfold ParseTransfer. cbn [CosmosTx]. rewrite Htx, ParseTransfer_loop_last.
    reflexivity.
Qed.

Lemma parse_and_sign_commute_witness :
  exists parsed signed,
    ParseTransfer signable_two_sends_Tx = Returns parsed /\
    AddSignature signable_two_sends_Tx (Some [x07]) = Returns (signed, None) /\
    ParsedTransfer parsed = Msg_MsgSend (Some send_carol_dave) /\
    AddSignature parsed (Some [x07])
      = Returns (set_ParsedTransfer signed (ParsedTransfer parsed), None) /\
    ParseTransfer signed
      = Returns (set_ParsedTransfer signed (ParsedTransfer parsed)).
Proof.
  destruct (ParseTransfer signable_two_sends_Tx) as [parsed | reason] eqn:Hp;
    [| discriminate Hp].
  destruct (AddSignature signable_two_sends_Tx (Some [x07]))
    as [[signed [err |]] | reason] eqn:Hs; try discriminate Hs.
  exists parsed, signed.
  split; [reflexivity |]. split; [reflexivity |].
  split; [injection Hp as <-; reflexivity |].
  exact (parse_and_sign_commute signable_two_sends_Tx parsed signed (Some [x07]) Hp Hs).
Defined.

End CosmosMore.
